(** * Magical Sounds: the card scheduler, selector and option builder

    A shallow embedding of the scheduling core of [src/scripts/main.js]
    (Leitner boxes, next-card selection, distractor building, scoring and
    progression), followed by the properties of the specification that are
    settled against it.

    Conventions of the embedding.
    - JavaScript numbers that only ever hold integers ([box], [dueAt],
      [questionIndex], [score], the counters) are [Z]; double arithmetic on
      them is exact below 2^53.  [activeCount] is a count used as an array
      index and slice bound and is a [nat].
    - The countdown values [timerLeft], [timerTotal] and the scoring
      arithmetic are binary64 floats ([PrimFloat]), as in the source.
    - A call to [Math.random()] is a draw [u : Q]; its contract is
      [0 <= u < 1].  The products [u * n] are taken exactly.  A function that
      draws once takes its draw; [buildOptions], which draws a number of
      times that depends on the draws, takes the sequence [rand : nat → Q]
      of the values of [Math.random()].
    - The only loop that may run forever, the backfill of [buildOptions],
      takes a bound on its iterations.
    - [state.current] is a reference to a card object of [state.deck]; it is
      the index of that card in the deck, so that a mutation through
      [state.current] is a mutation of the deck.
    - A [TypeError] of the source is [None]. *)

From Stdlib Require Import ZArith QArith Qround.
From Stdlib Require Import Floats.PrimFloat Floats.FloatOps Floats.SpecFloat Uint63.
From Stdlib Require Floats.FloatAxioms.
From stdpp Require Import base list strings gmap sorting.

Open Scope Z_scope.

(** ** JavaScript numbers *)

Module Js.

(** The double nearest to an integer (exact for [|z| < 2^53]). *)
Definition of_Z (z : Z) : float :=
  if z <? 0 then PrimFloat.opp (PrimFloat.of_uint63 (Uint63.of_Z (- z)))
  else PrimFloat.of_uint63 (Uint63.of_Z z).

(** The integer a double holds, when it is finite and integral. *)
Definition to_Z (x : float) : option Z :=
  match Prim2SF x with
  | S754_zero _ => Some 0
  | S754_finite s m e =>
      let n := if s then Z.neg m else Z.pos m in
      if 0 <=? e then Some (n * 2 ^ e)
      else if n mod 2 ^ (- e) =? 0 then Some (n / 2 ^ (- e)) else None
  | _ => None
  end.

(** [Math.min(a, b)]: NaN if either is NaN, and -0 is below +0. *)
Definition Math_min (a b : float) : float :=
  if PrimFloat.is_nan a || PrimFloat.is_nan b then nan
  else if PrimFloat.ltb a b then a
  else if PrimFloat.ltb b a then b
  else if PrimFloat.is_zero a && get_sign b then b else a.

(** [Math.max(a, b)]: NaN if either is NaN, and +0 is above -0. *)
Definition Math_max (a b : float) : float :=
  if PrimFloat.is_nan a || PrimFloat.is_nan b then nan
  else if PrimFloat.ltb a b then b
  else if PrimFloat.ltb b a then a
  else if PrimFloat.is_zero a && get_sign a then b else a.

(** [Math.round(x)]: the integer nearest to [x], ties towards +infinity;
    NaN, the infinities and the zeros are returned as they are, and a
    negative [x] that rounds to zero gives -0. *)
Definition Math_round (x : float) : float :=
  match Prim2SF x with
  | S754_finite s m e =>
      if 0 <=? e then x
      else
        let n := if s then Z.neg m else Z.pos m in
        let z := (2 * n + 2 ^ (- e)) / 2 ^ (- e + 1) in
        if (z =? 0) && s then neg_zero else of_Z z
  | _ => x
  end.

(** [0.05] and [0.30] as the doubles the source literals denote. *)
Definition f0_05 : float := 0x1.999999999999ap-5%float.
Definition f0_30 : float := 0x1.3333333333333p-2%float.

End Js.

(** ** Data: graphemes and their phoneme family *)

Record Sound := mkSound { sg : string; sfam : string }.

#[global] Instance Sound_eq_dec : EqDecision Sound.
Proof. solve_decision. Defined.

Definition SOUNDS_ORDERED : list Sound :=
  [ mkSound "ch" "ch"; mkSound "ou" "ou"; mkSound "on" "on";
    mkSound "fr" "fr"; mkSound "cl" "cl";
    mkSound "in" "in"; mkSound "oi" "oi"; mkSound "ai" "ai";
    mkSound "ei" "ai"; mkSound "an" "an"; mkSound "en" "an";
    mkSound "ph" "ph"; mkSound "au" "au"; mkSound "eu" "eu";
    mkSound "gn" "gn"; mkSound "er" "et"; mkSound "un" "un";
    mkSound "ill" "ill"; mkSound "ien" "ien"; mkSound "ain" "in";
    mkSound "et" "et"; mkSound "ein" "in"; mkSound "am" "an";
    mkSound "em" "an"; mkSound "ez" "et"; mkSound "um" "un";
    mkSound "eau" "au"; mkSound "œu" "eu" ].

(** Leitner box intervals, in questions. [None] is [undefined]. *)
Definition BOX_INTERVALS (box : Z) : option (Z * Z) :=
  match box with
  | 1 => Some (1, 2)
  | 2 => Some (3, 5)
  | 3 => Some (7, 12)
  | 4 => Some (15, 24)
  | 5 => Some (28, 40)
  | _ => None
  end.

(** ** Cards and the game state *)

Record Stats := mkStats { stats_asked : Z; stats_correct : Z }.

Record Card := mkCard {
  g : string;
  fam : string;
  box : Z;
  dueAt : Z;
  stats : Stats;
}.

Definition sound_of (c : Card) : Sound := mkSound (g c) (fam c).

(** The fields of [state] the core reads or writes.  [muted],
    [showingSoundOnScreen] and [timerTick] belong to the presentation. *)
Record State := mkState {
  activeCount : nat;
  correctSinceUnlock : Z;
  deck : list Card;
  questionIndex : Z;
  current : option nat;
  lastTargetG : option string;
  timerTotal : float;
  timerLeft : float;
  score : Z;
  asked : Z;
  right_ : Z;
  streak : Z;
  castleStage : Z;
}.

(** The [state] object as the script creates it. *)
Definition state : State :=
  {| activeCount := 4; correctSinceUnlock := 0; deck := [];
     questionIndex := 0; current := None; lastTargetG := None;
     timerTotal := (10 * 1000)%float; timerLeft := 0%float;
     score := 0; asked := 0; right_ := 0; streak := 0; castleStage := 0 |}.

Definition set_deck (d : list Card) (st : State) : State :=
  {| activeCount := activeCount st; correctSinceUnlock := correctSinceUnlock st;
     deck := d; questionIndex := questionIndex st; current := current st;
     lastTargetG := lastTargetG st; timerTotal := timerTotal st;
     timerLeft := timerLeft st; score := score st; asked := asked st;
     right_ := right_ st; streak := streak st; castleStage := castleStage st |}.

(** ** Card store *)

Definition makeCard (s : Sound) : Card :=
  {| g := sg s; fam := sfam s; box := 1; dueAt := 0;
     stats := mkStats 0 0 |}.

(** [SOUNDS_ORDERED.slice(0, state.activeCount).map(makeCard)] and the reset
    of the session counters. *)
Definition initDeck (st : State) : State :=
  {| activeCount := activeCount st; correctSinceUnlock := 0;
     deck := makeCard <$> take (activeCount st) SOUNDS_ORDERED;
     questionIndex := 0; current := None; lastTargetG := None;
     timerTotal := timerTotal st; timerLeft := timerLeft st;
     score := 0; asked := 0; right_ := 0; streak := 0; castleStage := 0 |}.

(** Unlock one additional sound, if available. *)
Definition unlockNext (st : State) : bool * State :=
  if decide (length SOUNDS_ORDERED <= activeCount st)%nat then (false, st)
  else
    match SOUNDS_ORDERED !! activeCount st with
    | Some next =>
        (true,
         {| activeCount := (activeCount st + 1)%nat; correctSinceUnlock := 0;
            deck := deck st ++ [makeCard next];
            questionIndex := questionIndex st; current := current st;
            lastTargetG := lastTargetG st; timerTotal := timerTotal st;
            timerLeft := timerLeft st; score := score st; asked := asked st;
            right_ := right_ st; streak := streak st;
            castleStage := castleStage st |})
    | None => (false, st) (* not reached: the index is in range *)
    end.

(** ** Scheduler *)

(** [rnd(a, b) = Math.floor(Math.random() * (b - a + 1)) + a] at the draw
    [u]. *)
Definition rnd (u : Q) (a b : Z) : Z :=
  Qfloor (u * inject_Z (b - a + 1)) + a.

Definition set_dueAt (d : Z) (c : Card) : Card :=
  {| g := g c; fam := fam c; box := box c; dueAt := d; stats := stats c |}.

Definition set_box (b : Z) (c : Card) : Card :=
  {| g := g c; fam := fam c; box := b; dueAt := dueAt c; stats := stats c |}.

Definition set_stats (s : Stats) (c : Card) : Card :=
  {| g := g c; fam := fam c; box := box c; dueAt := dueAt c; stats := s |}.

(** [schedule(card)] at question index [q] with the draw [u]. *)
Definition schedule (u : Q) (q : Z) (c : Card) : Card :=
  let '(minQ, maxQ) := default (3, 6) (BOX_INTERVALS (box c)) in
  let offset := rnd u minQ maxQ in
  set_dueAt (q + offset) c.

(** ** Selector *)

(** [Array.prototype.sort] with a comparator: the sort is stable, and for a
    consistent comparator its result is the stable sorted arrangement, which
    insertion from the right computes. *)
Section sort_by.
Context {A : Type} (cmp : A → A → Z).

Fixpoint insert_by (x : A) (l : list A) : list A :=
  match l with
  | [] => [x]
  | y :: l' => if cmp x y <=? 0 then x :: l else y :: insert_by x l'
  end.

Definition sort_by (l : list A) : list A := foldr insert_by [] l.

(** [a] is not after [b]. *)
Definition not_after (a b : A) : Prop := cmp a b <= 0.
End sort_by.

(** [a.box - b.box || a.dueAt - b.dueAt] *)
Definition cmp_box_dueAt (a b : Card) : Z :=
  if box a - box b =? 0 then dueAt a - dueAt b else box a - box b.

(** [(a.dueAt - b.dueAt) || (a.box - b.box)] *)
Definition cmp_dueAt_box (a b : Card) : Z :=
  if dueAt a - dueAt b =? 0 then box a - box b else dueAt a - dueAt b.

(** Cards are objects: a card of the deck is handled with its position. *)
Definition on_card (cmp : Card → Card → Z) (a b : nat * Card) : Z :=
  cmp a.2 b.2.

Definition is_due (q : Z) (ic : nat * Card) : Prop := dueAt ic.2 <= q.

Definition not_last (last : option string) (ic : nat * Card) : Prop :=
  Some (g ic.2) ≠ last.

#[global] Instance is_due_dec q ic : Decision (is_due q ic).
Proof. unfold is_due. apply _. Defined.

#[global] Instance not_last_dec last ic : Decision (not_last last ic).
Proof. unfold not_last. apply _. Defined.

(** Choose the next target card; the result is its position in the deck and
    [None] is [undefined]. *)
Definition pickNextCard (st : State) : option nat :=
  let cards := imap (λ i c, (i, c)) (deck st) in
  let due := filter (is_due (questionIndex st)) cards in
  match due with
  | _ :: _ =>
      let due := sort_by (on_card cmp_box_dueAt) due in
      let choices := filter (not_last (lastTargetG st)) due in
      fst <$> (head choices ∪ head due)
  | [] =>
      let soonest := sort_by (on_card cmp_dueAt_box) cards in
      let choices := filter (not_last (lastTargetG st)) soonest in
      fst <$> (head choices ∪ head soonest)
  end.

(** ** Answer evaluation *)

(** [Math.max(0, Math.min(1, state.timerLeft / state.timerTotal))] *)
Definition timeFrac (st : State) : float :=
  Js.Math_max 0 (Js.Math_min 1 (timerLeft st / timerTotal st)).

(** The points of a correct answer, from the remaining time fraction and the
    streak that already counts this answer. *)
Definition gained (frac : float) (streak' : Z) : float :=
  let base := 100%float in
  let speedBonus := Js.Math_round (100 * frac) in
  let streakMult := (1 + Js.Math_min Js.f0_30 (Js.of_Z streak' * Js.f0_05))%float in
  Js.Math_round ((base + speedBonus) * streakMult).

Definition stats_asked_incr (c : Card) : Card :=
  set_stats (mkStats (stats_asked (stats c) + 1) (stats_correct (stats c))) c.

Definition stats_correct_incr (c : Card) : Card :=
  set_stats (mkStats (stats_asked (stats c)) (stats_correct (stats c) + 1)) c.

(** [onAnswerClick] for the option [chosen], with the draw [u] of [schedule].
    The draws that choose the praise and encouragement messages do not reach
    the state.  [None]: [state.current] is [null], or the points are not a
    number (the timer fraction is NaN), which leaves the integer scores. *)
Definition onAnswerClick (chosen : string) (u : Q) (st : State) : option State :=
  i ← current st;
  c ← deck st !! i;
  let c := stats_asked_incr c in
  let asked' := asked st + 1 in
  if decide (chosen = g c) then
    let c := stats_correct_incr c in
    let streak' := streak st + 1 in
    let c := set_box (Z.min 5 (box c + 1)) c in
    let c := schedule u (questionIndex st) c in
    gained ← Js.to_Z (gained (timeFrac st) streak');
    let st1 :=
      {| activeCount := activeCount st;
         correctSinceUnlock := correctSinceUnlock st + 1;
         deck := <[i:=c]> (deck st);
         questionIndex := questionIndex st; current := current st;
         lastTargetG := lastTargetG st; timerTotal := timerTotal st;
         timerLeft := timerLeft st; score := score st + gained;
         asked := asked'; right_ := right_ st + 1; streak := streak';
         castleStage := castleStage st |} in
    let st2 :=
      if decide (5 <= correctSinceUnlock st1) then (unlockNext st1).2 else st1 in
    Some
      {| activeCount := activeCount st2;
         correctSinceUnlock := correctSinceUnlock st2;
         deck := deck st2;
         questionIndex := questionIndex st2; current := current st2;
         lastTargetG := lastTargetG st2; timerTotal := timerTotal st2;
         timerLeft := timerLeft st2; score := score st2;
         asked := asked st2; right_ := right_ st2; streak := streak st2;
         castleStage := Z.min 8 (castleStage st2 + 1) |}
  else
    let c := schedule u (questionIndex st) (set_box 1 c) in
    let penalty := 20 in
    Some
      {| activeCount := activeCount st;
         correctSinceUnlock := correctSinceUnlock st;
         deck := <[i:=c]> (deck st);
         questionIndex := questionIndex st; current := current st;
         lastTargetG := lastTargetG st; timerTotal := timerTotal st;
         timerLeft := timerLeft st; score := Z.max 0 (score st - penalty);
         asked := asked'; right_ := right_ st; streak := 0;
         castleStage := Z.max 0 (castleStage st - 1) |}.

(** [timesUp], with the draw [u] of [schedule]. [None]: [state.current] is
    [null]. *)
Definition timesUp (u : Q) (st : State) : option State :=
  i ← current st;
  c ← deck st !! i;
  let c := schedule u (questionIndex st) (set_box 1 c) in
  Some
    {| activeCount := activeCount st;
       correctSinceUnlock := correctSinceUnlock st;
       deck := <[i:=c]> (deck st);
       questionIndex := questionIndex st; current := current st;
       lastTargetG := lastTargetG st; timerTotal := timerTotal st;
       timerLeft := timerLeft st; score := score st;
       asked := asked st + 1; right_ := right_ st; streak := 0;
       castleStage := castleStage st |}.

(** [nextQuestion]: the question index advances before the pick; rendering
    the question restarts the timer.  [None]: the deck is empty and
    [card.g] throws. *)
Definition nextQuestion (st : State) : option State :=
  let q := questionIndex st + 1 in
  let st1 :=
    {| activeCount := activeCount st;
       correctSinceUnlock := correctSinceUnlock st; deck := deck st;
       questionIndex := q; current := current st;
       lastTargetG := lastTargetG st; timerTotal := timerTotal st;
       timerLeft := timerLeft st; score := score st; asked := asked st;
       right_ := right_ st; streak := streak st;
       castleStage := castleStage st |} in
  i ← pickNextCard st1;
  card ← deck st1 !! i;
  Some
    {| activeCount := activeCount st;
       correctSinceUnlock := correctSinceUnlock st; deck := deck st;
       questionIndex := q; current := Some i;
       lastTargetG := Some (g card); timerTotal := timerTotal st;
       timerLeft := timerTotal st; score := score st; asked := asked st;
       right_ := right_ st; streak := streak st;
       castleStage := castleStage st |}.

(** ** Distractor builder *)

(** The successive values of [Math.random()] are [rand 0], [rand 1], ...;
    every function that draws takes the number of draws made so far and
    returns it with its result. *)

(** The candidates of the deck: another symbol and another family. *)
Definition pool_of (deck : list Card) (target : Card) : list Card :=
  filter (λ c, g c ≠ g target ∧ fam c ≠ fam target) deck.

(** The candidates of the catalog that are not in the deck. *)
Definition extra_of (deck : list Card) (target : Card) : list Sound :=
  filter (λ s, sg s ≠ g target ∧ sfam s ≠ fam target
               ∧ ¬ Exists (λ c, g c = sg s) deck) SOUNDS_ORDERED.

(** The start position of [splice(i, 1)] on an array of length [len]. *)
Definition splice_start (len : nat) (i : Z) : nat :=
  if i <? 0 then Z.to_nat (Z.max (Z.of_nat len + i) 0)
  else Z.to_nat (Z.min i (Z.of_nat len)).

(** [a[i]] for a number [i]; [None] is [undefined]. *)
Definition at_index {A : Type} (a : list A) (i : Z) : option A :=
  if i <? 0 then None else a !! Z.to_nat i.

(** The loop that picks distractors of distinct families.  Every iteration
    removes one entry of [totalPool], so [length totalPool] iterations are
    enough and [k] starts there.  [None]: [pick] is [undefined] and
    [pick.fam] throws. *)
Fixpoint pick_distractors (k : nat) (rand : nat → Q) (n : nat)
    (totalPool distractors : list Sound) (famUsed : gset string)
    : option (list Sound * nat) :=
  if decide ((length distractors < 3)%nat ∧ totalPool ≠ []) then
    match k with
    | O => None
    | S k =>
        let i := rnd (rand n) 0 (Z.of_nat (length totalPool) - 1) in
        let i := splice_start (length totalPool) i in
        pick ← totalPool !! i;
        let totalPool := delete i totalPool in
        if decide (sfam pick ∈ famUsed) then
          pick_distractors k rand (S n) totalPool distractors famUsed
        else
          pick_distractors k rand (S n) totalPool (distractors ++ [pick])
            ({[sfam pick]} ∪ famUsed)
    end
  else Some (distractors, n).

(** The backfill loop, run for at most [fuel] iterations.  [None]: the loop
    has not finished after [fuel] iterations, or [any] is [undefined]. *)
Fixpoint backfill (fuel : nat) (rand : nat → Q) (n : nat) (target : Card)
    (distractors : list Sound) : option (list Sound * nat) :=
  if decide (length distractors < 3)%nat then
    match fuel with
    | O => None
    | S fuel =>
        let i := rnd (rand n) 0 (Z.of_nat (length SOUNDS_ORDERED) - 1) in
        any ← at_index SOUNDS_ORDERED i;
        if decide (sg any ≠ g target ∧ ¬ Exists (λ d, sg d = sg any) distractors)
        then backfill fuel rand (S n) target (distractors ++ [any])
        else backfill fuel rand (S n) target distractors
    end
  else Some (distractors, n).

(** The shuffle, from position [i] down to 1.  [None]: [j] is outside the
    array, which would leave it with a hole. *)
Fixpoint shuffle (i : nat) (rand : nat → Q) (n : nat) (options : list string)
    : option (list string) :=
  match i with
  | O => Some options
  | S i' =>
      let j := Qfloor (rand n * inject_Z (Z.of_nat i + 1)) in
      oi ← options !! i;
      oj ← at_index options j;
      shuffle i' rand (S n) (<[Z.to_nat j:=oi]> (<[i:=oj]> options))
  end.

(** [[...pool, ...extra]]: the candidates of the deck, and those of the
    catalog when the deck has fewer than three.  Only [g] and [fam] of an
    entry are read afterwards. *)
Definition total_pool (deck : list Card) (target : Card) : list Sound :=
  let pool := pool_of deck target in
  let extra :=
    if decide (length pool < 3)%nat then extra_of deck target else [] in
  (sound_of <$> pool) ++ extra.

Definition buildOptions (fuel : nat) (rand : nat → Q) (st : State)
    (target : Card) : option (list string) :=
  let totalPool := total_pool (deck st) target in
  '(distractors, n) ←
    pick_distractors (length totalPool) rand 0 totalPool [] {[fam target]};
  '(distractors, n) ← backfill fuel rand n target distractors;
  let options := g target :: (sg <$> distractors) in
  shuffle (length options - 1) rand n options.

(** ** Sessions *)

(** What happens to a running game: the next question is shown, an option is
    clicked, or the timer runs out. *)
Inductive event :=
  | Next
  | Answer (chosen : string) (u : Q)
  | Timeout (u : Q).

Definition step (ev : event) (st : State) : option State :=
  match ev with
  | Next => nextQuestion st
  | Answer chosen u => onAnswerClick chosen u st
  | Timeout u => timesUp u st
  end.

(** The card [state.current] refers to. *)
Definition current_card (st : State) : option Card :=
  i ← current st; deck st !! i.

(** Whether the event is a click on the symbol of the current card. *)
Definition is_correct (ev : event) (st : State) : bool :=
  match ev, current_card st with
  | Answer chosen _, Some c => bool_decide (chosen = g c)
  | _, _ => false
  end.

(** The state after a sequence of events, with the number of correct answers
    among them. *)
Fixpoint run (evs : list event) (st : State) : option (State * nat) :=
  match evs with
  | [] => Some (st, O)
  | ev :: evs =>
      st' ← step ev st;
      '(st'', k) ← run evs st';
      Some (st'', ((if is_correct ev st then 1 else 0) + k)%nat)
  end.

(** ** Predicates of the properties *)

(** A draw is a value of [Math.random()]. *)
Definition unit_draw (u : Q) : Prop := (0 <= u)%Q ∧ (u < 1)%Q.

Definition event_draws_ok (ev : event) : Prop :=
  match ev with
  | Next => True
  | Answer _ u | Timeout u => unit_draw u
  end.

(** Every card of the deck is in one of the five boxes. *)
Definition boxes_ok (st : State) : Prop :=
  Forall (λ c, 1 <= box c <= 5) (deck st).

(** [n] calls of [unlockNext]. *)
Definition unlocks (n : nat) (st : State) : State :=
  Nat.iter n (λ s, (unlockNext s).2) st.

(** The active cards are the first [activeCount] sounds of the catalog, in
    the order of the catalog. *)
Definition deck_is_prefix (st : State) : Prop :=
  sound_of <$> deck st = take (activeCount st) SOUNDS_ORDERED
  ∧ length (deck st) = activeCount st.

(** The deck is made of the first sounds of the catalog, in order. *)
Definition deck_prefix_of_catalog (deck : list Card) : Prop :=
  ∃ n, sound_of <$> deck = take n SOUNDS_ORDERED.

(** The cards of the deck are made of sounds of the catalog. *)
Definition deck_from_catalog (deck : list Card) : Prop :=
  ∀ c, c ∈ deck → sound_of c ∈ SOUNDS_ORDERED.

(** The families of a list of sounds. *)
Definition fams (l : list Sound) : gset string := list_to_set (sfam <$> l).

(** The family of a symbol, as the catalog gives it. *)
Definition family_of (sym : string) : option string :=
  sfam <$> head (filter (λ s, sg s = sym) SOUNDS_ORDERED).

(** No two of the symbols share a family. *)
Definition no_shared_family (options : list string) : Prop :=
  ∀ a b, a ∈ options → b ∈ options → a ≠ b → family_of a ≠ family_of b.

(** ** States and events of the examples *)

(** The game at its first question: the start button runs [initDeck] and
    [nextQuestion] on the initial [state]. *)
Definition at_first_question : State :=
  default state (nextQuestion (initDeck state)).

(** The game at its second question, after a click on the right symbol. *)
Definition at_second_question : State :=
  default state
    (st ← onAnswerClick "ch" (1 # 2) at_first_question; nextQuestion st).

(** Five questions answered correctly, from the first question on. *)
Definition five_correct : list event :=
  [Answer "ch" (1 # 2); Next; Answer "ou" (1 # 2); Next;
   Answer "on" (1 # 2); Next; Answer "fr" (1 # 2); Next;
   Answer "ch" (1 # 2); Next].

(** The game after these five answers. *)
Definition after_five_correct : State :=
  default state (fst <$> run five_correct at_first_question).

(** A game in which every sound of the catalog is unlocked, four correct
    answers after the last unlock. *)
Definition all_unlocked : State :=
  {| activeCount := 28; correctSinceUnlock := 4;
     deck := makeCard <$> SOUNDS_ORDERED;
     questionIndex := 1; current := Some 0%nat; lastTargetG := Some "ch";
     timerTotal := (10 * 1000)%float; timerLeft := (10 * 1000)%float;
     score := 0; asked := 0; right_ := 0; streak := 0; castleStage := 0 |}.

(** A card as the tests of the selector build it: [mk(g, box, dueAt)]. *)
Definition mk (g : string) (box dueAt : Z) : Card :=
  {| g := g; fam := g; box := box; dueAt := dueAt; stats := mkStats 0 0 |}.

(** A state with the given deck, question index and last target. *)
Definition selector_state (d : list Card) (q : Z) (last : option string) : State :=
  {| activeCount := length d; correctSinceUnlock := 0; deck := d;
     questionIndex := q; current := None; lastTargetG := last;
     timerTotal := (10 * 1000)%float; timerLeft := 0%float;
     score := 0; asked := 0; right_ := 0; streak := 0; castleStage := 0 |}.

(** A sequence of draws. *)
Definition some_draws (n : nat) : Q := Z.of_nat (n * 37 mod 101) # 101.

(** ** The start button and the displayed values *)

(** The click on the start button: [initDeck(); nextQuestion()]. *)
Definition startGame (st : State) : option State := nextQuestion (initDeck st).

(** The level progress of [updateHUD]:
    [Math.round((state.activeCount / SOUNDS_ORDERED.length) * 100)]. *)
Definition levelPercent (st : State) : float :=
  Js.Math_round
    (Js.of_Z (Z.of_nat (activeCount st))
     / Js.of_Z (Z.of_nat (length SOUNDS_ORDERED)) * 100)%float.

(** The accuracy of [updateHUD]:
    [state.asked ? Math.round((state.right/state.asked)*100) : 0]. *)
Definition accuracy (st : State) : float :=
  if asked st =? 0 then 0%float
  else Js.Math_round (Js.of_Z (right_ st) / Js.of_Z (asked st) * 100)%float.

(** ** Further predicates *)

(** The sum of a field over the cards of a deck. *)
Definition total (f : Card → Z) (deck : list Card) : Z :=
  foldr (λ c acc, f c + acc) 0 deck.

(** The session counters are consistent with one another. *)
Definition counters_ok (st : State) : Prop :=
  0 <= streak st <= right_ st ∧ right_ st <= asked st
  ∧ 0 <= castleStage st <= 8 ∧ 0 <= correctSinceUnlock st.

(** The statistics of the cards are consistent with the session counters. *)
Definition stats_ok (st : State) : Prop :=
  total (λ c, stats_correct (stats c)) (deck st) = right_ st
  ∧ total (λ c, stats_asked (stats c)) (deck st) <= asked st
  ∧ Forall (λ c, 0 <= stats_correct (stats c) <= stats_asked (stats c)) (deck st).

(** A question is on screen: [state.current] is a card of the deck and
    [state.lastTargetG] is its symbol. *)
Definition question_shown (st : State) : Prop :=
  ∃ i c, current st = Some i ∧ deck st !! i = Some c
         ∧ lastTargetG st = Some (g c).

(** The number of events of a kind in a sequence. *)
Definition count_events (p : event → bool) (evs : list event) : Z :=
  foldr (λ ev n, (if p ev then 1 else 0) + n) 0 evs.

Definition is_next (ev : event) : bool :=
  match ev with Next => true | _ => false end.

(** [a] comes first: before [b] by the comparator, or equal to it by the
    comparator and not after it by position. *)
Definition first_by {A : Type} (cmp : A → A → Z) (idx : A → nat) (a b : A) : Prop :=
  cmp a b < 0 ∨ (cmp a b = 0 ∧ (idx a <= idx b)%nat).

(** * Properties *)

(** ** The random integer of [rnd] *)

Lemma Qfloor_unit_draw (u : Q) (n : Z) :
  unit_draw u → 0 < n → 0 <= Qfloor (u * inject_Z n) < n.
Proof.
  intros [Hu0 Hu1] Hn. split.
  - change 0 with (Qfloor 0). apply Qfloor_resp_le.
    apply Qmult_le_0_compat; [done|].
    change 0%Q with (inject_Z 0). rewrite <- Zle_Qle. lia.
  - assert (Hlt : (u * inject_Z n < inject_Z n)%Q).
    { rewrite <- (Qmult_1_l (inject_Z n)) at 2.
      apply Qmult_lt_compat_r; [|done].
      change 0%Q with (inject_Z 0). rewrite <- Zlt_Qlt. lia. }
    rewrite Zlt_Qlt. eapply Qle_lt_trans; [apply Qfloor_le|done].
Qed.

Lemma rnd_range (u : Q) (a b : Z) :
  unit_draw u → a <= b → a <= rnd u a b <= b.
Proof.
  intros Hu Hab. unfold rnd.
  pose proof (Qfloor_unit_draw u (b - a + 1) Hu ltac:(lia)). lia.
Qed.

(** Every integer of the range is the value of [rnd] at some draw. *)
Lemma rnd_onto (a b k : Z) :
  a <= k <= b → ∃ u, unit_draw u ∧ rnd u a b = k.
Proof.
  intros Hk. unfold rnd. remember (b - a + 1) as n eqn:En.
  exists ((k - a) # Z.to_pos n)%Q. unfold unit_draw.
  assert (Hn : Z.pos (Z.to_pos n) = n) by (apply Z2Pos.id; lia).
  split; [split|].
  - unfold Qle. cbn [Qnum Qden]. lia.
  - unfold Qlt. cbn [Qnum Qden]. rewrite Hn. lia.
  - assert (He : ((k - a # Z.to_pos n) * inject_Z n == inject_Z (k - a))%Q).
    { unfold Qeq, Qmult, inject_Z. cbn [Qnum Qden].
      rewrite Pos.mul_1_r, Hn. lia. }
    rewrite He, Qfloor_Z. lia.
Qed.

(** ** Scheduler *)

Lemma schedule_dueAt (u : Q) (q : Z) (c : Card) :
  dueAt (schedule u q c)
  = q + rnd u (default (3, 6) (BOX_INTERVALS (box c))).1
              (default (3, 6) (BOX_INTERVALS (box c))).2.
Proof. unfold schedule. by destruct (default _ _). Qed.

Lemma schedule_frame (u : Q) (q : Z) (c : Card) :
  g (schedule u q c) = g c ∧ fam (schedule u q c) = fam c
  ∧ box (schedule u q c) = box c ∧ stats (schedule u q c) = stats c.
Proof. unfold schedule. by destruct (default _ _). Qed.

Lemma BOX_INTERVALS_ordered (b lo hi : Z) :
  default (3, 6) (BOX_INTERVALS b) = (lo, hi) → 1 <= lo <= hi.
Proof.
  unfold BOX_INTERVALS.
  destruct b as [|[[[]|[]|]|[[]|[]|]|]|]; simpl; intros [= <- <-]; lia.
Qed.

Lemma BOX_INTERVALS_other (b : Z) :
  ¬ (1 <= b <= 5) → BOX_INTERVALS b = None.
Proof.
  unfold BOX_INTERVALS.
  destruct b as [|[[[]|[]|]|[[]|[]|]|]|]; simpl; intros; (done || lia).
Qed.

(** C7: [schedule] sets [dueAt] to the question index plus an offset drawn
    from the interval of the card's box, bounds included: [1,2] for box 1,
    [3,5] for box 2, [7,12] for box 3, [15,24] for box 4, [28,40] for box 5
    and [3,6] for every other box; nothing else of the card changes. *)
Theorem schedule_within_box_interval (u : Q) (q : Z) (c : Card) :
  unit_draw u →
  ∃ offset,
    schedule u q c = set_dueAt (q + offset) c
    ∧ (box c = 1 → 1 <= offset <= 2)
    ∧ (box c = 2 → 3 <= offset <= 5)
    ∧ (box c = 3 → 7 <= offset <= 12)
    ∧ (box c = 4 → 15 <= offset <= 24)
    ∧ (box c = 5 → 28 <= offset <= 40)
    ∧ (¬ (1 <= box c <= 5) → 3 <= offset <= 6).
Proof.
  intros Hu. unfold schedule.
  destruct (default _ _) as [lo hi] eqn:Hint.
  exists (rnd u lo hi). split; [done|].
  repeat apply conj; intros Hb.
  1-5: rewrite Hb in Hint; injection Hint as <- <-; by apply rnd_range.
  rewrite (BOX_INTERVALS_other _ Hb) in Hint. injection Hint as <- <-.
  by apply rnd_range.
Qed.

Lemma schedule_within_box_interval_witness :
  ∃ offset,
    schedule (1 # 2) 10 (set_box 2 (makeCard (mkSound "ch" "ch")))
    = set_dueAt (10 + offset) (set_box 2 (makeCard (mkSound "ch" "ch")))
    ∧ 3 <= offset <= 5.
Proof.
  destruct (schedule_within_box_interval (1 # 2) 10
              (set_box 2 (makeCard (mkSound "ch" "ch"))))
    as (offset & Hs & _ & H2 & _).
  - split; [discriminate | reflexivity].
  - exists offset. split; [exact Hs | apply H2; reflexivity].
Defined.

(** The bounds of the intervals are reached. *)
Lemma schedule_reaches_bounds (q : Z) (c : Card) (lo hi k : Z) :
  default (3, 6) (BOX_INTERVALS (box c)) = (lo, hi) → lo <= k <= hi →
  ∃ u, unit_draw u ∧ dueAt (schedule u q c) = q + k.
Proof.
  intros Hint Hk. destruct (rnd_onto lo hi k Hk) as (u & Hu & Hr).
  exists u. split; [done|]. by rewrite schedule_dueAt, Hint, <- Hr.
Qed.

Lemma schedule_not_before (u : Q) (q : Z) (c : Card) :
  unit_draw u → q < dueAt (schedule u q c).
Proof.
  intros Hu. rewrite schedule_dueAt.
  destruct (default _ _) as [lo hi] eqn:Hint. simpl.
  pose proof (BOX_INTERVALS_ordered _ _ _ Hint).
  pose proof (rnd_range u lo hi Hu). lia.
Qed.

(** ** Card store *)

Lemma unlockNext_exhausted (st : State) :
  (length SOUNDS_ORDERED <= activeCount st)%nat → unlockNext st = (false, st).
Proof. intros H. unfold unlockNext. by rewrite decide_True. Qed.

Lemma unlockNext_available (st : State) :
  (activeCount st < length SOUNDS_ORDERED)%nat →
  ∃ next,
    SOUNDS_ORDERED !! activeCount st = Some next
    ∧ unlockNext st
      = (true,
         {| activeCount := (activeCount st + 1)%nat; correctSinceUnlock := 0;
            deck := deck st ++ [makeCard next];
            questionIndex := questionIndex st; current := current st;
            lastTargetG := lastTargetG st; timerTotal := timerTotal st;
            timerLeft := timerLeft st; score := score st; asked := asked st;
            right_ := right_ st; streak := streak st;
            castleStage := castleStage st |}).
Proof.
  intros H. destruct (lookup_lt_is_Some_2 SOUNDS_ORDERED _ H) as [next Hn].
  exists next. split; [done|]. unfold unlockNext.
  rewrite decide_False by lia. by rewrite Hn.
Qed.

(** What [unlockNext] does to the deck: nothing, or one fresh card more at
    the end. *)
Lemma unlockNext_deck (st : State) :
  deck (unlockNext st).2 = deck st
  ∨ ∃ next, deck (unlockNext st).2 = deck st ++ [makeCard next].
Proof.
  destruct (decide (length SOUNDS_ORDERED <= activeCount st)%nat) as [H|H].
  - left. by rewrite unlockNext_exhausted.
  - destruct (unlockNext_available st) as (next & _ & ->); [lia|].
    right. by exists next.
Qed.

Lemma boxes_ok_unlockNext (st : State) :
  boxes_ok st → boxes_ok (unlockNext st).2.
Proof.
  unfold boxes_ok. intros H.
  destruct (unlockNext_deck st) as [->|[next ->]]; [done|].
  apply Forall_app. split; [done|]. apply Forall_singleton. simpl. lia.
Qed.

Lemma boxes_ok_initDeck (st : State) : boxes_ok (initDeck st).
Proof.
  unfold boxes_ok. simpl. apply Forall_fmap, Forall_true. intros s. simpl. lia.
Qed.

(** ** Answer evaluation: the two branches of [onAnswerClick] *)

(** Splits a hypothesis [onAnswerClick chosen u st = Some st'] into the
    correct and the incorrect answer, with the current card in context. *)
Ltac answer_inv H :=
  unfold onAnswerClick in H;
  let i := fresh "i" in
  let c := fresh "c" in
  let Hi := fresh "Hcur" in
  let Hc := fresh "Hcard" in
  destruct (current _) as [i|] eqn:Hi; simpl in H; [|discriminate H];
  destruct (deck _ !! i) as [c|] eqn:Hc; simpl in H; [|discriminate H];
  let Hg := fresh "Hchosen" in
  destruct (decide (_ = g c)) as [Hg|Hg];
  [ let pts := fresh "pts" in
    let Hp := fresh "Hpts" in
    destruct (Js.to_Z _) as [pts|] eqn:Hp; simpl in H; [|discriminate H]
  | ];
  injection H as H; subst.

Ltac timeout_inv H :=
  unfold timesUp in H;
  let i := fresh "i" in
  let c := fresh "c" in
  let Hi := fresh "Hcur" in
  let Hc := fresh "Hcard" in
  destruct (current _) as [i|] eqn:Hi; simpl in H; [|discriminate H];
  destruct (deck _ !! i) as [c|] eqn:Hc; simpl in H; [|discriminate H];
  injection H as H; subst.

Ltac next_inv H :=
  unfold nextQuestion in H;
  let i := fresh "i" in
  let c := fresh "c" in
  let Hi := fresh "Hpick" in
  let Hc := fresh "Hcard" in
  destruct (pickNextCard _) as [i|] eqn:Hi; simpl in H; [|discriminate H];
  destruct (deck _ !! i) as [c|] eqn:Hc; simpl in H; [|discriminate H];
  injection H as H; subst.

Lemma boxes_ok_step (ev : event) (st st' : State) :
  boxes_ok st → step ev st = Some st' → boxes_ok st'.
Proof.
  unfold boxes_ok. intros Hb Hs. destruct ev as [|chosen u|u]; simpl in Hs.
  - next_inv Hs. done.
  - answer_inv Hs; simpl.
    + assert (Hins : Forall (λ c, 1 <= box c <= 5)
                (<[i:=schedule u (questionIndex st)
                        (set_box (Z.min 5 (box (stats_correct_incr
                           (stats_asked_incr c)) + 1))
                           (stats_correct_incr (stats_asked_incr c)))]>
                   (deck st))).
      { apply Forall_insert; [done|].
        destruct (schedule_frame u (questionIndex st)
          (set_box (Z.min 5 (box (stats_correct_incr (stats_asked_incr c)) + 1))
             (stats_correct_incr (stats_asked_incr c)))) as (_ & _ & -> & _).
        simpl. apply (Forall_lookup_1 _ _ _ _ Hb) in Hcard. simpl in Hcard. lia. }
      case_decide; [|done].
      match goal with |- context [unlockNext ?s] =>
        apply (boxes_ok_unlockNext s) end. exact Hins.
    + apply Forall_insert; [done|].
      destruct (schedule_frame u (questionIndex st)
                  (set_box 1 (stats_asked_incr c))) as (_ & _ & -> & _).
      simpl. lia.
  - timeout_inv Hs. simpl. apply Forall_insert; [done|].
    destruct (schedule_frame u (questionIndex st) (set_box 1 c))
      as (_ & _ & -> & _).
    simpl. lia.
Qed.

Lemma unlockNext_lookup (st : State) (i : nat) (c : Card) :
  deck st !! i = Some c → deck (unlockNext st).2 !! i = Some c.
Proof.
  intros H. destruct (unlockNext_deck st) as [->|[next ->]]; [done|].
  by apply lookup_app_l_Some.
Qed.

(** After an answer or a timeout the current card is due after the question
    it was scheduled at. *)
Lemma step_reschedules (ev : event) (st st' : State) (i : nat) :
  ev ≠ Next → event_draws_ok ev → step ev st = Some st' →
  current st = Some i →
  ∃ c', deck st' !! i = Some c' ∧ questionIndex st < dueAt c'.
Proof.
  intros Hev Hu Hs Hi. destruct ev as [|chosen u|u]; [done|..]; simpl in *.
  - answer_inv Hs; simplify_eq; simpl.
    + eexists. split; [|by apply schedule_not_before].
      assert (i < length (deck st))%nat by by eapply lookup_lt_Some.
      case_decide.
      * apply unlockNext_lookup. simpl. by apply list_lookup_insert_eq.
      * simpl. by apply list_lookup_insert_eq.
    + eexists. split; [|by apply schedule_not_before].
      apply list_lookup_insert_eq. by eapply lookup_lt_Some.
  - timeout_inv Hs; simplify_eq; simpl.
    eexists. split; [|by apply schedule_not_before].
    apply list_lookup_insert_eq. by eapply lookup_lt_Some.
Qed.

(** C8: every operation keeps every card's box in [1,5]: a card is created
    in box 1 (at the start of a session and at an unlock), and showing the
    next question, a correct answer, an incorrect answer and a timeout keep
    the boxes of a deck in range; every reschedule leaves [dueAt] at or
    after the question index at which the card was scheduled. *)
Theorem boxes_in_range_dueAt_not_before :
  (∀ s, box (makeCard s) = 1)
  ∧ (∀ st, boxes_ok (initDeck st))
  ∧ (∀ st, boxes_ok st → boxes_ok (unlockNext st).2)
  ∧ (∀ ev st st', boxes_ok st → step ev st = Some st' → boxes_ok st')
  ∧ (∀ u q c, unit_draw u → q <= dueAt (schedule u q c))
  ∧ (∀ ev st st' i,
       ev ≠ Next → event_draws_ok ev → step ev st = Some st' →
       current st = Some i →
       ∃ c', deck st' !! i = Some c' ∧ questionIndex st <= dueAt c').
Proof.
  split; [done|]. split; [apply boxes_ok_initDeck|].
  split; [apply boxes_ok_unlockNext|]. split; [apply boxes_ok_step|].
  split.
  - intros u q c Hu. pose proof (schedule_not_before u q c Hu). lia.
  - intros ev st st' i Hev Hu Hs Hi.
    destruct (step_reschedules ev st st' i Hev Hu Hs Hi) as (c' & ? & ?).
    exists c'. split; [done|lia].
Qed.

Lemma boxes_in_range_dueAt_not_before_witness :
  ∃ st' c',
    step (Answer "ch" (1 # 2)) at_first_question = Some st'
    ∧ boxes_ok st'
    ∧ deck st' !! 0%nat = Some c'
    ∧ questionIndex at_first_question <= dueAt c'.
Proof.
  destruct boxes_in_range_dueAt_not_before as (_ & Hinit & _ & Hstep & _ & Hdue).
  destruct (step (Answer "ch" (1 # 2)) at_first_question) as [st'|] eqn:Hs;
    [|vm_compute in Hs; discriminate Hs].
  destruct (Hdue (Answer "ch" (1 # 2)) at_first_question st' 0%nat)
    as (c' & Hc' & Hq); [discriminate | split; [discriminate|reflexivity]
                        | exact Hs | reflexivity |].
  exists st', c'. split; [reflexivity|]. split; [|split; assumption].
  apply (Hstep (Answer "ch" (1 # 2)) at_first_question st'); [|exact Hs].
  apply (Hstep Next (initDeck state) at_first_question (Hinit state)).
  reflexivity.
Defined.

(** ** Scoring *)

Lemma unlockNext_frame (st : State) :
  questionIndex (unlockNext st).2 = questionIndex st
  ∧ current (unlockNext st).2 = current st
  ∧ lastTargetG (unlockNext st).2 = lastTargetG st
  ∧ score (unlockNext st).2 = score st
  ∧ asked (unlockNext st).2 = asked st
  ∧ right_ (unlockNext st).2 = right_ st
  ∧ streak (unlockNext st).2 = streak st
  ∧ castleStage (unlockNext st).2 = castleStage st.
Proof.
  destruct (decide (length SOUNDS_ORDERED <= activeCount st)%nat) as [H|H].
  - by rewrite unlockNext_exhausted.
  - by destruct (unlockNext_available st) as (next & _ & ->); [lia|].
Qed.

Lemma current_card_Some (st : State) (c : Card) :
  current_card st = Some c ↔ ∃ i, current st = Some i ∧ deck st !! i = Some c.
Proof.
  unfold current_card. destruct (current st) as [i|]; simpl.
  - split; [by exists i | by intros (? & [= ->] & ?)].
  - split; [done | by intros (? & ? & ?)].
Qed.

(** The first correct answer of a streak with the full time left is worth
    210 points; without the streak multiplier it would be 200. *)
Lemma gained_full_time_first : Js.to_Z (gained 1 1) = Some 210.
Proof. vm_compute. reflexivity. Qed.

Lemma gained_full_time_no_streak : Js.to_Z (gained 1 0) = Some 200.
Proof. vm_compute. reflexivity. Qed.

Lemma onAnswerClick_correct_score (st : State) (c : Card) (u : Q) (pts : Z) :
  current_card st = Some c →
  Js.to_Z (gained (timeFrac st) (streak st + 1)) = Some pts →
  ∃ st', onAnswerClick (g c) u st = Some st'
         ∧ score st' = score st + pts ∧ streak st' = streak st + 1.
Proof.
  intros (i & Hi & Hc)%current_card_Some Hpts.
  unfold onAnswerClick. rewrite Hi. simpl. rewrite Hc. simpl.
  rewrite decide_True by done. rewrite Hpts. simpl.
  eexists. split; [reflexivity|]. simpl.
  case_decide; [|done].
  match goal with |- context [unlockNext ?s] =>
    destruct (unlockNext_frame s) as (_ & _ & _ & -> & _ & _ & -> & _) end.
  done.
Qed.

Lemma onAnswerClick_incorrect_score (st : State) (c : Card) (chosen : string) (u : Q) :
  current_card st = Some c → chosen ≠ g c →
  ∃ st', onAnswerClick chosen u st = Some st'
         ∧ score st' = Z.max 0 (score st - 20) ∧ streak st' = 0.
Proof.
  intros (i & Hi & Hc)%current_card_Some Hne.
  unfold onAnswerClick. rewrite Hi. simpl. rewrite Hc. simpl.
  rewrite decide_False by done. eexists. split; [reflexivity|]. done.
Qed.

(** The timer fraction is 1 when the whole of a selectable duration is
    left. *)
Lemma timeFrac_full (st : State) :
  timerLeft st = timerTotal st →
  timerTotal st ∈ [5000; 10000; 20000; 30000]%float →
  timeFrac st = 1%float.
Proof.
  unfold timeFrac. intros -> Ht.
  repeat (apply elem_of_cons in Ht as [->|Ht]; [vm_compute; reflexivity|]).
  by apply elem_of_nil in Ht.
Qed.

(** C1, as the code has it: a correct answer given with streak 0 and the
    full timer left adds exactly 210 points, because the streak counts the
    answer itself when the multiplier is taken: the points are
    round((100 + round(100 * fraction)) * (1 + min(0.30, (streak + 1) * 0.05)));
    every incorrect answer takes 20 points, never below 0. *)
Theorem score_after_answer (st : State) (c : Card) (u : Q) :
  current_card st = Some c →
  (streak st = 0 → timeFrac st = 1%float →
   ∃ st', onAnswerClick (g c) u st = Some st' ∧ score st' = score st + 210)
  ∧ (∀ pts, Js.to_Z (gained (timeFrac st) (streak st + 1)) = Some pts →
     ∃ st', onAnswerClick (g c) u st = Some st' ∧ score st' = score st + pts)
  ∧ (∀ chosen, chosen ≠ g c →
     ∃ st', onAnswerClick chosen u st = Some st'
            ∧ score st' = Z.max 0 (score st - 20)
            ∧ 0 <= score st'
            ∧ (20 <= score st → score st' = score st - 20)).
Proof.
  intros Hc. split; [|split].
  - intros Hs Hf.
    destruct (onAnswerClick_correct_score st c u 210 Hc) as (st' & ? & ? & _).
    { rewrite Hs, Hf. apply gained_full_time_first. }
    by exists st'.
  - intros pts Hp.
    destruct (onAnswerClick_correct_score st c u pts Hc Hp) as (st' & ? & ? & _).
    by exists st'.
  - intros chosen Hne.
    destruct (onAnswerClick_incorrect_score st c chosen u Hc Hne)
      as (st' & ? & Hsc & _).
    exists st'. split; [done|]. split; [done|]. lia.
Qed.

Lemma score_after_answer_witness :
  (∃ st', onAnswerClick "ch" (1 # 2) at_first_question = Some st'
          ∧ score st' = score at_first_question + 210)
  ∧ (∃ st', onAnswerClick "ou" (1 # 2) at_first_question = Some st'
            ∧ score st' = Z.max 0 (score at_first_question - 20)).
Proof.
  destruct (score_after_answer at_first_question
              (makeCard (mkSound "ch" "ch")) (1 # 2))
    as (Hfull & _ & Hwrong); [reflexivity|].
  split.
  - apply Hfull; reflexivity.
  - destruct (Hwrong "ou") as (st' & ? & ? & _); [discriminate|].
    exists st'. split; assumption.
Defined.

(** C1 as stated fails at the first question of a game: the streak is 0,
    the timer is full, and the correct answer adds 210 points, not 200. *)
Lemma first_correct_answer_adds_210 :
  streak at_first_question = 0
  ∧ timerLeft at_first_question = timerTotal at_first_question
  ∧ timeFrac at_first_question = 1%float
  ∧ current_card at_first_question = Some (makeCard (mkSound "ch" "ch"))
  ∧ ∃ st', onAnswerClick "ch" (1 # 2) at_first_question = Some st'
           ∧ score st' = score at_first_question + 210
           ∧ score st' ≠ score at_first_question + 200.
Proof.
  repeat (split; [reflexivity|]).
  eexists. split; [vm_compute; reflexivity|]. split; [reflexivity|discriminate].
Qed.

(** ** Timeout *)

Lemma timesUp_effect (u : Q) (st st' : State) (i : nat) (c : Card) :
  current st = Some i → deck st !! i = Some c → timesUp u st = Some st' →
  deck st' = <[i:=schedule u (questionIndex st) (set_box 1 c)]> (deck st)
  ∧ streak st' = 0 ∧ asked st' = asked st + 1 ∧ score st' = score st
  ∧ castleStage st' = castleStage st.
Proof.
  intros Hi Hc Hs. unfold timesUp in Hs. rewrite Hi in Hs. simpl in Hs.
  rewrite Hc in Hs. simpl in Hs. by injection Hs as <-.
Qed.

(** C3 at the second question of a game whose first answer was correct: the
    timeout resets the streak, puts the card in box 1, reschedules it and
    counts the question, but it leaves the score at 210 and the card's own
    [stats.asked] at 0, where an incorrect answer gives 190 and 1. *)
Theorem timesUp_keeps_score_and_card_stats :
  ∃ c t w ct cw,
    current_card at_second_question = Some c
    ∧ timesUp (1 # 2) at_second_question = Some t
    ∧ onAnswerClick "ch" (1 # 2) at_second_question = Some w
    ∧ current_card t = Some ct ∧ current_card w = Some cw
    ∧ g c = "ou"
    ∧ streak at_second_question = 1 ∧ streak t = 0 ∧ streak w = 0
    ∧ box ct = 1 ∧ box cw = 1
    ∧ dueAt ct = 4 ∧ dueAt cw = 4
    ∧ asked at_second_question = 1 ∧ asked t = 2 ∧ asked w = 2
    ∧ score at_second_question = 210 ∧ score t = 210 ∧ score w = 190
    ∧ stats_asked (stats c) = 0
    ∧ stats_asked (stats ct) = 0 ∧ stats_asked (stats cw) = 1.
Proof.
  do 5 eexists.
  split; [vm_compute; reflexivity|].
  split; [vm_compute; reflexivity|].
  split; [vm_compute; reflexivity|].
  split; [vm_compute; reflexivity|].
  split; [vm_compute; reflexivity|].
  repeat split.
Qed.

(** ** Progression *)

Lemma unlockNext_progress (st : State) :
  ((activeCount st < length SOUNDS_ORDERED)%nat
   ∧ (unlockNext st).1 = true
   ∧ correctSinceUnlock (unlockNext st).2 = 0
   ∧ activeCount (unlockNext st).2 = (activeCount st + 1)%nat
   ∧ length (deck (unlockNext st).2) = (length (deck st) + 1)%nat)
  ∨ ((length SOUNDS_ORDERED <= activeCount st)%nat
     ∧ unlockNext st = (false, st)).
Proof.
  destruct (decide (length SOUNDS_ORDERED <= activeCount st)%nat) as [H|H].
  - right. split; [done|]. by apply unlockNext_exhausted.
  - left. destruct (unlockNext_available st) as (next & _ & ->); [lia|].
    simpl. rewrite length_app. simpl in *. repeat split; lia.
Qed.

(** The progression effect of a click on the right symbol. *)
Lemma correct_answer_progress (st st' : State) (c : Card) (u : Q) :
  current_card st = Some c → onAnswerClick (g c) u st = Some st' →
  (correctSinceUnlock st + 1 < 5 →
     correctSinceUnlock st' = correctSinceUnlock st + 1
     ∧ activeCount st' = activeCount st
     ∧ length (deck st') = length (deck st))
  ∧ (5 <= correctSinceUnlock st + 1 →
     (activeCount st < length SOUNDS_ORDERED)%nat →
     correctSinceUnlock st' = 0
     ∧ activeCount st' = (activeCount st + 1)%nat
     ∧ length (deck st') = (length (deck st) + 1)%nat)
  ∧ (5 <= correctSinceUnlock st + 1 →
     (length SOUNDS_ORDERED <= activeCount st)%nat →
     correctSinceUnlock st' = correctSinceUnlock st + 1
     ∧ activeCount st' = activeCount st
     ∧ length (deck st') = length (deck st)).
Proof.
  intros (i & Hi & Hc)%current_card_Some Hs.
  unfold onAnswerClick in Hs. rewrite Hi in Hs. simpl in Hs.
  rewrite Hc in Hs. simpl in Hs. rewrite decide_True in Hs by done.
  destruct (Js.to_Z _) as [pts|]; simpl in Hs; [|done].
  injection Hs as <-. simpl.
  case_decide as H5; simpl in H5.
  - match goal with |- context [unlockNext ?s] =>
      destruct (unlockNext_progress s) as [(Hlt & _ & H0 & Ha & Hl)|[Hge Heq]] end;
      simpl in *.
    + rewrite H0, Ha, Hl, length_insert.
      repeat split; intros; change (length SOUNDS_ORDERED) with 28%nat in *; lia.
    + rewrite Heq. simpl. rewrite length_insert.
      repeat split; intros; change (length SOUNDS_ORDERED) with 28%nat in *; lia.
  - simpl. rewrite length_insert. repeat split; intros; lia.
Qed.

(** Everything else leaves the progression alone. *)
Lemma other_step_progress (ev : event) (st st' : State) :
  is_correct ev st = false → step ev st = Some st' →
  correctSinceUnlock st' = correctSinceUnlock st
  ∧ activeCount st' = activeCount st.
Proof.
  intros Hno Hs. destruct ev as [|chosen u|u]; simpl in Hs.
  - by next_inv Hs.
  - unfold is_correct, current_card in Hno.
    answer_inv Hs; simpl in Hno; rewrite Hcard in Hno.
    + by rewrite bool_decide_eq_false in Hno.
    + done.
  - by timeout_inv Hs.
Qed.

Lemma is_correct_true (ev : event) (st : State) :
  is_correct ev st = true →
  ∃ c u, current_card st = Some c ∧ ev = Answer (g c) u.
Proof.
  unfold is_correct. destruct ev as [|chosen u|u]; [done| |done].
  destruct (current_card st) as [c|]; [|done].
  intros ->%bool_decide_eq_true. by exists c, u.
Qed.

Lemma run_without_correct (evs : list event) (st st' : State) :
  run evs st = Some (st', O) →
  correctSinceUnlock st' = correctSinceUnlock st
  ∧ activeCount st' = activeCount st.
Proof.
  revert st. induction evs as [|ev evs IH]; intros st Hr; simpl in Hr.
  - by injection Hr as <-.
  - destruct (step ev st) as [st1|] eqn:Hs; simpl in Hr; [|done].
    destruct (run evs st1) as [[st2 k]|] eqn:Hr1; simpl in Hr; [|done].
    injection Hr as <- Hk.
    destruct (is_correct ev st) eqn:Hc; [lia|]. simpl in Hk. subst k.
    destruct (IH _ Hr1) as [-> ->]. by apply (other_step_progress ev).
Qed.

(** From a counter [n] below 5 and a catalog that is not exhausted, [k]
    correct answers with [n + k <= 5] raise the counter to [n + k], and the
    one that makes it 5 unlocks a sound and resets it. *)
Lemma run_progress (evs : list event) (st st' : State) (k : nat) :
  0 <= correctSinceUnlock st < 5 →
  (activeCount st < length SOUNDS_ORDERED)%nat →
  run evs st = Some (st', k) →
  (correctSinceUnlock st + Z.of_nat k < 5 →
     correctSinceUnlock st' = correctSinceUnlock st + Z.of_nat k
     ∧ activeCount st' = activeCount st)
  ∧ (correctSinceUnlock st + Z.of_nat k = 5 →
     correctSinceUnlock st' = 0
     ∧ activeCount st' = (activeCount st + 1)%nat).
Proof.
  revert st k. induction evs as [|ev evs IH]; intros st k Hn Ha Hr; simpl in Hr.
  - injection Hr as <- <-. split; intros; [split|]; lia.
  - destruct (step ev st) as [st1|] eqn:Hs; simpl in Hr; [|done].
    destruct (run evs st1) as [[st2 k1]|] eqn:Hr1; simpl in Hr; [|done].
    injection Hr as <- <-.
    destruct (is_correct ev st) eqn:Hc.
    + destruct (is_correct_true _ _ Hc) as (c & u & Hcur & ->). simpl in Hs.
      destruct (correct_answer_progress st st1 c u Hcur Hs) as (Hlt & Hunlock & _).
      destruct (decide (correctSinceUnlock st + 1 < 5)) as [H5|H5].
      * destruct (Hlt H5) as (Hn1 & Ha1 & _).
        destruct (IH st1 k1) as [IH1 IH2]; [lia|lia|done|].
        split; intros Hk.
        -- destruct IH1 as [-> ->]; [lia|]. split; lia.
        -- destruct IH2 as [-> ->]; [lia|]. split; lia.
      * destruct Hunlock as (Hn1 & Ha1 & _); [lia|done|].
        split; intros; [lia|].
        assert (k1 = O) as -> by lia.
        destruct (run_without_correct _ _ _ Hr1) as [-> ->]. done.
    + destruct (other_step_progress ev st st1 Hc Hs) as [Hn1 Ha1].
      destruct (IH st1 k1) as [IH1 IH2]; [lia|lia|done|].
      split; intros Hk.
      * destruct IH1 as [-> ->]; [lia|]. split; lia.
      * destruct IH2 as [-> ->]; [lia|]. split; lia.
Qed.

(** C2, as the code has it: every correct answer increments the counter of
    correct answers since the last unlock; when it reaches 5, [unlockNext]
    runs, and the counter is reset to 0 when the unlock succeeds, while on an
    exhausted catalog it keeps its incremented value.  In particular, after
    exactly 5 correct answers from a counter of 0 with the catalog not
    exhausted, the active count is one more and the counter is 0. *)
Theorem unlock_after_five_correct :
  (∀ st c u pts,
     current_card st = Some c →
     Js.to_Z (gained (timeFrac st) (streak st + 1)) = Some pts →
     ∃ st', onAnswerClick (g c) u st = Some st'
       ∧ (correctSinceUnlock st + 1 < 5 →
            correctSinceUnlock st' = correctSinceUnlock st + 1
            ∧ activeCount st' = activeCount st
            ∧ length (deck st') = length (deck st))
       ∧ (5 <= correctSinceUnlock st + 1 →
          (activeCount st < length SOUNDS_ORDERED)%nat →
            correctSinceUnlock st' = 0
            ∧ activeCount st' = (activeCount st + 1)%nat
            ∧ length (deck st') = (length (deck st) + 1)%nat)
       ∧ (5 <= correctSinceUnlock st + 1 →
          (length SOUNDS_ORDERED <= activeCount st)%nat →
            correctSinceUnlock st' = correctSinceUnlock st + 1
            ∧ activeCount st' = activeCount st
            ∧ length (deck st') = length (deck st)))
  ∧ (∀ evs st st',
       correctSinceUnlock st = 0 →
       (activeCount st < length SOUNDS_ORDERED)%nat →
       run evs st = Some (st', 5%nat) →
       activeCount st' = (activeCount st + 1)%nat
       ∧ correctSinceUnlock st' = 0).
Proof.
  split.
  - intros st c u pts Hc Hp.
    destruct (onAnswerClick_correct_score st c u pts Hc Hp) as (st' & Hs & _).
    exists st'. split; [done|]. by apply (correct_answer_progress st st' c u).
  - intros evs st st' H0 Ha Hr.
    destruct (run_progress evs st st' 5 ltac:(lia) Ha Hr) as [_ H5].
    destruct H5 as [-> ->]; [lia|done].
Qed.

Lemma unlock_after_five_correct_witness :
  (∃ st', onAnswerClick "ch" (1 # 2) at_first_question = Some st'
          ∧ correctSinceUnlock st' = 1 ∧ activeCount st' = 4%nat)
  ∧ (∃ st', run five_correct at_first_question = Some (st', 5%nat)
            ∧ activeCount st' = 5%nat ∧ correctSinceUnlock st' = 0).
Proof.
  destruct unlock_after_five_correct as [Hone Hfive]. split.
  - destruct (Hone at_first_question (makeCard (mkSound "ch" "ch")) (1 # 2) 210)
      as (st' & Hs & Hlt & _); [reflexivity|reflexivity|].
    destruct Hlt as (? & ? & _); [reflexivity|].
    exists st'. repeat split; assumption.
  - destruct (run five_correct at_first_question) as [[st' k]|] eqn:Hr;
      [|vm_compute in Hr; discriminate Hr].
    assert (k = 5%nat) as ->.
    { vm_compute in Hr. injection Hr as _ <-. reflexivity. }
    destruct (Hfive five_correct at_first_question st') as [? ?];
      [reflexivity|vm_compute; lia|exact Hr|].
    exists st'. repeat split; assumption.
Defined.

(** C2 as stated fails on an exhausted catalog: the fifth correct answer
    since the last unlock leaves the counter at 5, and the next one at 6. *)
Lemma counter_not_reset_on_exhausted_catalog :
  activeCount all_unlocked = length SOUNDS_ORDERED
  ∧ correctSinceUnlock all_unlocked = 4
  ∧ current_card all_unlocked = Some (makeCard (mkSound "ch" "ch"))
  ∧ (unlockNext all_unlocked).1 = false
  ∧ ∃ st' st'',
      onAnswerClick "ch" (1 # 2) all_unlocked = Some st'
      ∧ correctSinceUnlock st' = 5
      ∧ correctSinceUnlock st' ≠ 0
      ∧ activeCount st' = activeCount all_unlocked
      ∧ onAnswerClick "ch" (1 # 2) st' = Some st''
      ∧ correctSinceUnlock st'' = 6.
Proof.
  repeat (split; [reflexivity|]).
  do 2 eexists. split; [vm_compute; reflexivity|].
  split; [reflexivity|]. split; [discriminate|]. split; [reflexivity|].
  split; [vm_compute; reflexivity|]. reflexivity.
Qed.

(** ** The deck is a prefix of the catalog *)

Lemma sound_of_makeCard (s : Sound) : sound_of (makeCard s) = s.
Proof. by destruct s. Qed.

Lemma sound_of_makeCard_fmap (l : list Sound) :
  sound_of <$> (makeCard <$> l) = l.
Proof.
  induction l as [|s l IH]; [done|].
  csimpl. by rewrite sound_of_makeCard, IH.
Qed.

Lemma deck_is_prefix_initDeck (st : State) :
  (activeCount st <= length SOUNDS_ORDERED)%nat → deck_is_prefix (initDeck st).
Proof.
  intros Ha. unfold deck_is_prefix. simpl. split.
  - apply sound_of_makeCard_fmap.
  - rewrite length_fmap, length_take. lia.
Qed.

Lemma deck_is_prefix_unlockNext (st : State) :
  deck_is_prefix st → deck_is_prefix (unlockNext st).2.
Proof.
  intros [Hd Hl].
  destruct (decide (length SOUNDS_ORDERED <= activeCount st)%nat) as [H|H].
  - by rewrite unlockNext_exhausted.
  - destruct (unlockNext_available st) as (next & Hn & ->); [lia|].
    unfold deck_is_prefix. simpl. split.
    + rewrite fmap_app, Hd. simpl. rewrite sound_of_makeCard.
      replace (activeCount st + 1)%nat with (S (activeCount st)) by lia.
      by rewrite (take_S_r _ _ _ Hn).
    + rewrite length_app. simpl. lia.
Qed.

Lemma deck_is_prefix_unlocks (n : nat) (st : State) :
  deck_is_prefix st → deck_is_prefix (unlocks n st).
Proof.
  intros H. induction n as [|n IH]; [done|].
  unfold unlocks. simpl. by apply deck_is_prefix_unlockNext.
Qed.

Lemma sound_of_insert (l : list Card) (i : nat) (c c' : Card) :
  l !! i = Some c → sound_of c' = sound_of c →
  sound_of <$> <[i:=c']> l = sound_of <$> l.
Proof.
  intros Hc Hs. rewrite list_fmap_insert, Hs.
  apply list_insert_id. by rewrite list_lookup_fmap, Hc.
Qed.

Lemma sound_of_schedule (u : Q) (q : Z) (c : Card) :
  sound_of (schedule u q c) = sound_of c.
Proof.
  unfold sound_of. by destruct (schedule_frame u q c) as (-> & -> & _).
Qed.

Lemma deck_is_prefix_step (ev : event) (st st' : State) :
  deck_is_prefix st → step ev st = Some st' → deck_is_prefix st'.
Proof.
  intros [Hd Hl] Hs. destruct ev as [|chosen u|u]; simpl in Hs.
  - by next_inv Hs.
  - answer_inv Hs.
    + unfold deck_is_prefix. simpl. case_decide.
      * match goal with |- context [unlockNext ?s] =>
          apply (deck_is_prefix_unlockNext s) end.
        split; simpl.
        -- erewrite sound_of_insert; [done..|]. by rewrite sound_of_schedule.
        -- by rewrite length_insert.
      * split; simpl.
        -- erewrite sound_of_insert; [done..|]. by rewrite sound_of_schedule.
        -- by rewrite length_insert.
    + split; simpl.
      * erewrite sound_of_insert; [done..|]. by rewrite sound_of_schedule.
      * by rewrite length_insert.
  - timeout_inv Hs. split; simpl.
    + erewrite sound_of_insert; [done..|]. by rewrite sound_of_schedule.
    + by rewrite length_insert.
Qed.

Lemma run_invariant (P : State → Prop) (evs : list event) (st st' : State) (k : nat) :
  (∀ ev s s', P s → step ev s = Some s' → P s') →
  P st → run evs st = Some (st', k) → P st'.
Proof.
  intros Hstep. revert st k. induction evs as [|ev evs IH]; intros st k HP Hr.
  - simpl in Hr. by injection Hr as <- _.
  - simpl in Hr. destruct (step ev st) as [st1|] eqn:Hs; simpl in Hr; [|done].
    destruct (run evs st1) as [[st2 k1]|] eqn:Hr1; simpl in Hr; [|done].
    injection Hr as <- _. eapply IH; [|done]. by eapply Hstep.
Qed.

(** C9: [unlockNext] either finds the catalog exhausted and changes nothing,
    or appends one fresh card, made of the next sound of the catalog, at the
    end of the deck, and leaves the cards that were there and their order as
    they were.  After [initDeck] and any number of unlocks, called directly
    or reached through the events of a game, the (symbol, family) sequence
    of the deck is the catalog prefix of length [activeCount], and the deck
    has [activeCount] cards. *)
Theorem unlockNext_appends_deck_is_prefix :
  (∀ st,
     unlockNext st = (false, st)
     ∨ ∃ next,
         SOUNDS_ORDERED !! activeCount st = Some next
         ∧ (unlockNext st).1 = true
         ∧ deck (unlockNext st).2
           = deck st ++ [ {| g := sg next; fam := sfam next; box := 1;
                             dueAt := 0; stats := mkStats 0 0 |} ]
         ∧ activeCount (unlockNext st).2 = S (activeCount st))
  ∧ (∀ st n,
       (activeCount st <= length SOUNDS_ORDERED)%nat →
       sound_of <$> deck (unlocks n (initDeck st))
       = take (activeCount (unlocks n (initDeck st))) SOUNDS_ORDERED
       ∧ length (deck (unlocks n (initDeck st)))
         = activeCount (unlocks n (initDeck st)))
  ∧ (∀ st evs st' k,
       (activeCount st <= length SOUNDS_ORDERED)%nat →
       run evs (initDeck st) = Some (st', k) →
       sound_of <$> deck st' = take (activeCount st') SOUNDS_ORDERED
       ∧ length (deck st') = activeCount st').
Proof.
  split; [|split].
  - intros st.
    destruct (decide (length SOUNDS_ORDERED <= activeCount st)%nat) as [H|H].
    + left. by apply unlockNext_exhausted.
    + right. destruct (unlockNext_available st) as (next & Hn & ->); [lia|].
      exists next. simpl. repeat split; [done|f_equal; lia].
  - intros st n Ha.
    by apply (deck_is_prefix_unlocks n), deck_is_prefix_initDeck.
  - intros st evs st' k Ha Hr.
    apply (run_invariant deck_is_prefix evs (initDeck st) st' k);
      [apply deck_is_prefix_step | by apply deck_is_prefix_initDeck | done].
Qed.

Lemma unlockNext_appends_deck_is_prefix_witness :
  activeCount (unlocks 3 (initDeck state)) = 7%nat
  ∧ sound_of <$> deck (unlocks 3 (initDeck state))
    = take (activeCount (unlocks 3 (initDeck state))) SOUNDS_ORDERED
  ∧ length (deck (unlocks 3 (initDeck state)))
    = activeCount (unlocks 3 (initDeck state))
  ∧ run (Next :: five_correct) (initDeck state)
    = Some (after_five_correct, 5%nat)
  ∧ sound_of <$> deck after_five_correct
    = take (activeCount after_five_correct) SOUNDS_ORDERED.
Proof.
  destruct unlockNext_appends_deck_is_prefix as (_ & Hunlocks & Hrun).
  split; [vm_compute; reflexivity|].
  destruct (Hunlocks state 3%nat) as [Hd Hl]; [vm_compute; lia|].
  split; [exact Hd|]. split; [exact Hl|].
  assert (Hr : run (Next :: five_correct) (initDeck state)
               = Some (after_five_correct, 5%nat))
    by (vm_compute; reflexivity).
  split; [exact Hr|].
  destruct (Hrun state (Next :: five_correct) after_five_correct 5%nat)
    as [Hp _]; [vm_compute; lia | exact Hr | exact Hp].
Defined.

(** ** Sorting with a comparator *)

Section sort_by_facts.
Context {A : Type} (cmp : A → A → Z).

Lemma insert_by_perm (x : A) (l : list A) : insert_by cmp x l ≡ₚ x :: l.
Proof.
  induction l as [|y l IH]; simpl; [done|].
  destruct (cmp x y <=? 0); [done|]. by rewrite IH, Permutation_swap.
Qed.

Lemma sort_by_perm (l : list A) : sort_by cmp l ≡ₚ l.
Proof.
  induction l as [|x l IH]; simpl; [done|].
  by rewrite insert_by_perm, IH.
Qed.

Lemma sort_by_elem_of (l : list A) (x : A) : x ∈ sort_by cmp l ↔ x ∈ l.
Proof. by rewrite sort_by_perm. Qed.

Lemma sort_by_nil_inv (l : list A) : sort_by cmp l = [] → l = [].
Proof.
  intros H. apply Permutation_nil_r. rewrite <- H. by rewrite sort_by_perm.
Qed.

(** The comparator is consistent. *)
Hypothesis cmp_trans : ∀ a b c, cmp a b <= 0 → cmp b c <= 0 → cmp a c <= 0.
Hypothesis cmp_flip : ∀ a b, 0 < cmp a b → cmp b a <= 0.

Lemma cmp_refl (a : A) : cmp a a <= 0.
Proof. destruct (decide (cmp a a <= 0)) as [|H]; [done|]. apply cmp_flip. lia. Qed.

Lemma insert_by_sorted (x : A) (l : list A) :
  StronglySorted (not_after cmp) l → StronglySorted (not_after cmp) (insert_by cmp x l).
Proof.
  induction l as [|y l IH]; intros Hs; simpl.
  - by repeat constructor.
  - apply StronglySorted_inv in Hs as [Hs Hy].
    destruct (cmp x y <=? 0) eqn:Hxy.
    + apply Z.leb_le in Hxy. constructor; [by constructor|].
      constructor; [done|].
      eapply Forall_impl; [exact Hy|]. intros z Hz. by eapply cmp_trans.
    + apply Z.leb_gt in Hxy. constructor; [by apply IH|].
      rewrite insert_by_perm. constructor; [by apply cmp_flip|done].
Qed.

Lemma sort_by_sorted (l : list A) : StronglySorted (not_after cmp) (sort_by cmp l).
Proof.
  induction l as [|x l IH]; simpl; [constructor|by apply insert_by_sorted].
Qed.

(** The first element of a sorted list that passes a filter is not after
    any other that passes it. *)
Lemma head_filter_sorted (P : A → Prop) `{!∀ x, Decision (P x)}
    (l : list A) (x : A) :
  StronglySorted (not_after cmp) l → head (filter P l) = Some x →
  x ∈ l ∧ P x ∧ ∀ y, y ∈ l → P y → cmp x y <= 0.
Proof.
  induction l as [|a l IH]; intros Hs Hh; [done|].
  apply StronglySorted_inv in Hs as [Hs Ha].
  rewrite filter_cons in Hh. destruct (decide (P a)) as [HP|HP].
  - simpl in Hh. injection Hh as <-. split; [left|]. split; [done|].
    intros y [->|Hy]%elem_of_cons _; [apply cmp_refl|].
    by eapply Forall_forall in Ha.
  - destruct (IH Hs Hh) as (Hx & HPx & Hmin).
    split; [by right|]. split; [done|].
    intros y [->|Hy]%elem_of_cons HPy; [done|by apply Hmin].
Qed.

Lemma head_sorted (l : list A) (x : A) :
  StronglySorted (not_after cmp) l → head l = Some x →
  x ∈ l ∧ ∀ y, y ∈ l → cmp x y <= 0.
Proof.
  destruct l as [|a l]; intros Hs Hh; [done|]. injection Hh as ->.
  apply StronglySorted_inv in Hs as [_ Ha]. split; [left|].
  intros y [->|Hy]%elem_of_cons; [apply cmp_refl|].
  by eapply Forall_forall in Ha.
Qed.

(** [choices[0] || sorted[0]] on the sorted candidates [l]: an element of
    [l]; the least that passes the filter if one does, else the least. *)
Lemma first_choice_spec (P : A → Prop) `{!∀ x, Decision (P x)}
    (l : list A) (x : A) :
  head (filter P (sort_by cmp l)) ∪ head (sort_by cmp l) = Some x →
  x ∈ l
  ∧ ((P x ∧ ∀ y, y ∈ l → P y → cmp x y <= 0)
     ∨ ((∀ y, y ∈ l → ¬ P y) ∧ ∀ y, y ∈ l → cmp x y <= 0)).
Proof.
  pose proof (sort_by_sorted l) as Hs.
  destruct (head (filter P (sort_by cmp l))) as [x'|] eqn:Hf.
  - intros Hx'. assert (x' = x) as ->
      by (destruct (head (sort_by cmp l)); by injection Hx').
    destruct (head_filter_sorted P _ _ Hs Hf) as (Hx & HP & Hmin).
    split; [by apply sort_by_elem_of|]. left. split; [done|].
    intros y Hy. apply Hmin. by apply sort_by_elem_of.
  - rewrite (left_id None _). intros Hh.
    destruct (head_sorted _ _ Hs Hh) as (Hx & Hmin).
    split; [by apply sort_by_elem_of|]. right. split.
    + intros y Hy HP. apply head_None in Hf.
      assert (y ∈ filter P (sort_by cmp l)) as Hin
        by (apply list_elem_of_filter; by rewrite sort_by_elem_of).
      rewrite Hf in Hin. by apply elem_of_nil in Hin.
    + intros y Hy. apply Hmin. by apply sort_by_elem_of.
Qed.

Lemma first_choice_is_Some (P : A → Prop) `{!∀ x, Decision (P x)}
    (l : list A) :
  l ≠ [] → is_Some (head (filter P (sort_by cmp l)) ∪ head (sort_by cmp l)).
Proof.
  intros Hl. destruct (sort_by cmp l) as [|a l'] eqn:Hs.
  - by apply sort_by_nil_inv in Hs.
  - destruct (head (filter P (a :: l'))); by eexists.
Qed.
End sort_by_facts.

(** ** Selector *)

Lemma cmp_box_dueAt_trans (a b c : nat * Card) :
  on_card cmp_box_dueAt a b <= 0 → on_card cmp_box_dueAt b c <= 0 →
  on_card cmp_box_dueAt a c <= 0.
Proof.
  unfold on_card, cmp_box_dueAt.
  repeat match goal with |- context [?x =? ?y] => destruct (Z.eqb_spec x y) end;
    lia.
Qed.

Lemma cmp_box_dueAt_flip (a b : nat * Card) :
  0 < on_card cmp_box_dueAt a b → on_card cmp_box_dueAt b a <= 0.
Proof.
  unfold on_card, cmp_box_dueAt.
  repeat match goal with |- context [?x =? ?y] => destruct (Z.eqb_spec x y) end;
    lia.
Qed.

Lemma cmp_dueAt_box_trans (a b c : nat * Card) :
  on_card cmp_dueAt_box a b <= 0 → on_card cmp_dueAt_box b c <= 0 →
  on_card cmp_dueAt_box a c <= 0.
Proof.
  unfold on_card, cmp_dueAt_box.
  repeat match goal with |- context [?x =? ?y] => destruct (Z.eqb_spec x y) end;
    lia.
Qed.

Lemma cmp_dueAt_box_flip (a b : nat * Card) :
  0 < on_card cmp_dueAt_box a b → on_card cmp_dueAt_box b a <= 0.
Proof.
  unfold on_card, cmp_dueAt_box.
  repeat match goal with |- context [?x =? ?y] => destruct (Z.eqb_spec x y) end;
    lia.
Qed.

(** What the comparators order by. *)
Lemma cmp_box_dueAt_le (a b : Card) :
  cmp_box_dueAt a b <= 0 ↔ box a < box b ∨ (box a = box b ∧ dueAt a <= dueAt b).
Proof. unfold cmp_box_dueAt. destruct (Z.eqb_spec (box a - box b) 0); lia. Qed.

Lemma cmp_dueAt_box_le (a b : Card) :
  cmp_dueAt_box a b <= 0 ↔ dueAt a < dueAt b ∨ (dueAt a = dueAt b ∧ box a <= box b).
Proof. unfold cmp_dueAt_box. destruct (Z.eqb_spec (dueAt a - dueAt b) 0); lia. Qed.

Lemma elem_of_cards (l : list Card) (i : nat) (c : Card) :
  (i, c) ∈ imap (λ i c, (i, c)) l ↔ l !! i = Some c.
Proof.
  rewrite elem_of_lookup_imap. split.
  - by intros (j & d & [= -> ->] & ?).
  - intros ?. by exists i, c.
Qed.

(** The card [pickNextCard] returns, in each of its two branches: with a due
    card in the deck, the least by (box, dueAt) of the due cards that differ
    from the last target, or of all the due cards when none differs; with no
    due card, the same over the whole deck by (dueAt, box). *)
Lemma pickNextCard_spec (st : State) (i : nat) :
  pickNextCard st = Some i →
  ∃ c, deck st !! i = Some c
    ∧ ((dueAt c <= questionIndex st
        ∧ ((Some (g c) ≠ lastTargetG st
            ∧ ∀ j d, deck st !! j = Some d → dueAt d <= questionIndex st →
                     Some (g d) ≠ lastTargetG st → cmp_box_dueAt c d <= 0)
           ∨ ((∀ j d, deck st !! j = Some d → dueAt d <= questionIndex st →
                      Some (g d) = lastTargetG st)
              ∧ ∀ j d, deck st !! j = Some d → dueAt d <= questionIndex st →
                       cmp_box_dueAt c d <= 0)))
       ∨ ((∀ j d, deck st !! j = Some d → questionIndex st < dueAt d)
          ∧ ((Some (g c) ≠ lastTargetG st
              ∧ ∀ j d, deck st !! j = Some d →
                       Some (g d) ≠ lastTargetG st → cmp_dueAt_box c d <= 0)
             ∨ ((∀ j d, deck st !! j = Some d → Some (g d) = lastTargetG st)
                ∧ ∀ j d, deck st !! j = Some d → cmp_dueAt_box c d <= 0)))).
Proof.
  unfold pickNextCard.
  set (cards := imap (λ i c, (i, c)) (deck st)).
  destruct (filter (is_due (questionIndex st)) cards) as [|p due] eqn:Hdue.
  - intros Hp. apply fmap_Some in Hp as ([i' c] & Hh & ->). simpl.
    apply (first_choice_spec _ cmp_dueAt_box_trans cmp_dueAt_box_flip)
      in Hh as (Hin & Hmin).
    apply elem_of_cards in Hin. exists c. split; [done|]. right. split.
    + intros j d Hd. destruct (decide (dueAt d <= questionIndex st)) as [Hle|]; [|lia].
      assert ((j, d) ∈ filter (is_due (questionIndex st)) cards) as Hf
        by (apply list_elem_of_filter; split; [done|by apply elem_of_cards]).
      rewrite Hdue in Hf. by apply elem_of_nil in Hf.
    + destruct Hmin as [[HP Hmin]|[Hnone Hmin]]; [left|right]; (split; [try done|]).
      * intros j d Hd Hne. by apply (Hmin (j, d)); [apply elem_of_cards|].
      * intros j d Hd. apply dec_stable. intros Hne.
        by apply (Hnone (j, d)); [apply elem_of_cards|].
      * intros j d Hd. by apply (Hmin (j, d)), elem_of_cards.
  - rewrite <- Hdue. clear p due Hdue.
    intros Hp. apply fmap_Some in Hp as ([i' c] & Hh & ->). simpl.
    apply (first_choice_spec _ cmp_box_dueAt_trans cmp_box_dueAt_flip)
      in Hh as (Hin & Hmin).
    apply list_elem_of_filter in Hin as [Hc Hin]. apply elem_of_cards in Hin.
    exists c. split; [done|]. left. split; [done|].
    assert (Hd : ∀ j d, deck st !! j = Some d → dueAt d <= questionIndex st →
                 (j, d) ∈ filter (is_due (questionIndex st)) cards)
      by (intros; apply list_elem_of_filter; split; [done|by apply elem_of_cards]).
    destruct Hmin as [[HP Hmin]|[Hnone Hmin]]; [left|right]; (split; [try done|]).
    + intros j d ? ? Hne. by apply (Hmin (j, d)); [apply Hd|].
    + intros j d ? ?. apply dec_stable. intros Hne. by apply (Hnone (j, d)); [apply Hd|].
    + intros j d ? ?. by apply (Hmin (j, d)), Hd.
Qed.

Lemma pickNextCard_is_Some (st : State) :
  deck st ≠ [] → is_Some (pickNextCard st).
Proof.
  intros Hd. unfold pickNextCard.
  set (cards := imap (λ i c, (i, c)) (deck st)).
  assert (cards ≠ []) as Hc.
  { intros Hc. apply Hd. apply length_zero_iff_nil.
    rewrite <- (length_imap (λ i c, (i, c))). fold cards. by rewrite Hc. }
  destruct (filter (is_due (questionIndex st)) cards) as [|p due] eqn:Hdue.
  - apply fmap_is_Some. by apply first_choice_is_Some.
  - apply fmap_is_Some. by apply first_choice_is_Some.
Qed.

(** C10: on a non-empty deck [pickNextCard] returns a card of the deck, in
    the branch with due cards and in the branch without. *)
Theorem pickNextCard_returns_deck_card (st : State) :
  deck st ≠ [] →
  ∃ i c, pickNextCard st = Some i ∧ deck st !! i = Some c ∧ c ∈ deck st.
Proof.
  intros Hd. destruct (pickNextCard_is_Some st Hd) as [i Hi].
  destruct (pickNextCard_spec st i Hi) as (c & Hc & _).
  exists i, c. split; [done|]. split; [done|]. by eapply list_elem_of_lookup_2.
Qed.

Lemma pickNextCard_returns_deck_card_witness :
  ∃ i c,
    pickNextCard (selector_state [mk "b" 1 12; mk "c" 2 14] 10 None) = Some i
    ∧ [mk "b" 1 12; mk "c" 2 14] !! i = Some c
    ∧ c ∈ [mk "b" 1 12; mk "c" 2 14].
Proof.
  apply (pickNextCard_returns_deck_card
           (selector_state [mk "b" 1 12; mk "c" 2 14] 10 None)).
  discriminate.
Defined.

(** C4, as the code has it: when at least one card is due, [pickNextCard]
    returns a due card; it differs from the last target if a due card does;
    and it has the minimum box, and among equal boxes the earliest [dueAt],
    among the due cards that differ from the last target, or among all the
    due cards when it is the last target itself. *)
Theorem pickNextCard_least_due_candidate (st : State) :
  (∃ j d, deck st !! j = Some d ∧ dueAt d <= questionIndex st) →
  ∃ i c,
    pickNextCard st = Some i ∧ deck st !! i = Some c
    ∧ dueAt c <= questionIndex st
    ∧ ((∃ j d, deck st !! j = Some d ∧ dueAt d <= questionIndex st
               ∧ Some (g d) ≠ lastTargetG st) →
       Some (g c) ≠ lastTargetG st)
    ∧ (∀ j d, deck st !! j = Some d → dueAt d <= questionIndex st →
              Some (g d) ≠ lastTargetG st ∨ Some (g c) = lastTargetG st →
              box c < box d ∨ (box c = box d ∧ dueAt c <= dueAt d)).
Proof.
  intros (j0 & d0 & Hd0 & Hdue0).
  destruct (pickNextCard_is_Some st) as [i Hi].
  { intros Hnil. by rewrite Hnil in Hd0. }
  destruct (pickNextCard_spec st i Hi) as (c & Hc & [[Hdue Hmin]|[Hnone _]]).
  - exists i, c. split; [done|]. split; [done|]. split; [done|].
    destruct Hmin as [[Hne Hmin]|[Hall Hmin]].
    + split; [done|]. intros j d Hd Hdd [Hdl|Hcl]; [|done].
      apply cmp_box_dueAt_le. by eapply Hmin.
    + split.
      * intros (j & d & Hd & Hdd & Hne). by specialize (Hall j d Hd Hdd).
      * intros j d Hd Hdd _. apply cmp_box_dueAt_le. by eapply Hmin.
  - specialize (Hnone j0 d0 Hd0). lia.
Qed.

Lemma pickNextCard_least_due_candidate_witness :
  ∃ i c,
    pickNextCard
      (selector_state [mk "a" 3 15; mk "b" 1 9; mk "c" 2 9] 10 None) = Some i
    ∧ [mk "a" 3 15; mk "b" 1 9; mk "c" 2 9] !! i = Some c
    ∧ dueAt c <= 10
    ∧ (box c < box (mk "c" 2 9)
       ∨ (box c = box (mk "c" 2 9) ∧ dueAt c <= dueAt (mk "c" 2 9))).
Proof.
  destruct (pickNextCard_least_due_candidate
              (selector_state [mk "a" 3 15; mk "b" 1 9; mk "c" 2 9] 10 None))
    as (i & c & Hi & Hc & Hdue & _ & Hmin).
  - exists 1%nat, (mk "b" 1 9). split; [reflexivity|]. simpl. lia.
  - exists i, c. split; [exact Hi|]. split; [exact Hc|]. split; [exact Hdue|].
    apply (Hmin 2%nat (mk "c" 2 9)); [reflexivity|simpl; lia|].
    left. discriminate.
Defined.

(** C4 as stated fails when the due card of the lowest box is the last
    target: with "b" in box 1 and "c" in box 2 both due and "b" asked last,
    the card returned is "c", whose box is not the minimum. *)
Lemma pickNextCard_skips_lowest_box :
  ∃ c,
    pickNextCard
      (selector_state [mk "b" 1 9; mk "c" 2 9] 10 (Some "b")) = Some 1%nat
    ∧ [mk "b" 1 9; mk "c" 2 9] !! 1%nat = Some c
    ∧ dueAt (mk "b" 1 9) <= 10 ∧ dueAt (mk "c" 2 9) <= 10
    ∧ box (mk "b" 1 9) < box c.
Proof.
  exists (mk "c" 2 9). split; [reflexivity|]. split; [reflexivity|].
  simpl. lia.
Qed.

(** C5, as the code has it: [pickNextCard] does not return the last target
    when the cards it chooses from, the due cards if there are any and the
    whole deck otherwise, hold a card with another symbol. *)
Theorem pickNextCard_avoids_last_target (st : State) (i : nat) (c : Card) :
  pickNextCard st = Some i → deck st !! i = Some c →
  ((∃ j d, deck st !! j = Some d ∧ dueAt d <= questionIndex st
           ∧ Some (g d) ≠ lastTargetG st) →
   Some (g c) ≠ lastTargetG st)
  ∧ ((∀ j d, deck st !! j = Some d → questionIndex st < dueAt d) →
     (∃ j d, deck st !! j = Some d ∧ Some (g d) ≠ lastTargetG st) →
     Some (g c) ≠ lastTargetG st).
Proof.
  intros Hi Hc.
  destruct (pickNextCard_spec st i Hi) as (c' & Hc' & Hspec).
  assert (c' = c) as -> by congruence.
  destruct Hspec as [[Hdue Hmin]|[Hnone Hmin]].
  - split.
    + intros (j & d & Hd & Hdd & Hne).
      destruct Hmin as [[? _]|[Hall _]]; [done|].
      by specialize (Hall j d Hd Hdd).
    + intros Hno _. specialize (Hno i c Hc). lia.
  - split.
    + intros (j & d & Hd & Hdd & _). specialize (Hnone j d Hd). lia.
    + intros _ (j & d & Hd & Hne).
      destruct Hmin as [[? _]|[Hall _]]; [done|].
      by specialize (Hall j d Hd).
Qed.

Lemma pickNextCard_avoids_last_target_witness :
  pickNextCard (selector_state [mk "b" 1 9; mk "c" 1 9] 10 (Some "b"))
  = Some 1%nat
  ∧ Some (g (mk "c" 1 9)) ≠ Some "b".
Proof.
  split; [reflexivity|].
  destruct (pickNextCard_avoids_last_target
              (selector_state [mk "b" 1 9; mk "c" 1 9] 10 (Some "b"))
              1%nat (mk "c" 1 9)) as [Hdue _]; [reflexivity|reflexivity|].
  apply Hdue.
  exists 1%nat, (mk "c" 1 9). split; [reflexivity|]. split; [simpl; lia|].
  discriminate.
Defined.

(** C5 as stated fails when the only due card is the last target: "b" is
    due, "c" is in the deck but not yet due, and "b" is returned again. *)
Lemma pickNextCard_repeats_only_due_card :
  ∃ c,
    pickNextCard
      (selector_state [mk "b" 1 9; mk "c" 1 20] 10 (Some "b")) = Some 0%nat
    ∧ [mk "b" 1 9; mk "c" 1 20] !! 0%nat = Some c
    ∧ Some (g c) = Some "b"
    ∧ [mk "b" 1 9; mk "c" 1 20] !! 1%nat = Some (mk "c" 1 20)
    ∧ Some (g (mk "c" 1 20)) ≠ Some "b".
Proof.
  exists (mk "b" 1 9). repeat (split; [reflexivity|]). discriminate.
Qed.

(** ** Distractor builder *)

(** *** The catalog *)

Lemma catalog_symbols_NoDup : NoDup (sg <$> SOUNDS_ORDERED).
Proof. apply (bool_decide_unpack _). vm_compute. reflexivity. Qed.

Lemma NoDup_fmap_elem_inj {A B} (f : A → B) (l : list A) (x y : A) :
  NoDup (f <$> l) → x ∈ l → y ∈ l → f x = f y → x = y.
Proof.
  intros Hnd [i Hi]%list_elem_of_lookup_1 [j Hj]%list_elem_of_lookup_1 Hxy.
  assert (i = j) as ->; [|congruence].
  apply (NoDup_lookup _ i j (f x) Hnd).
  - by rewrite list_lookup_fmap, Hi.
  - by rewrite list_lookup_fmap, Hj, Hxy.
Qed.

Lemma catalog_symbol_inj (a b : Sound) :
  a ∈ SOUNDS_ORDERED → b ∈ SOUNDS_ORDERED → sg a = sg b → a = b.
Proof. apply NoDup_fmap_elem_inj, catalog_symbols_NoDup. Qed.

Lemma family_of_catalog (s : Sound) :
  s ∈ SOUNDS_ORDERED → family_of (sg s) = Some (sfam s).
Proof.
  intros Hs. unfold family_of.
  destruct (filter (λ s', sg s' = sg s) SOUNDS_ORDERED) as [|s' l] eqn:Hf.
  - assert (s ∈ filter (λ s', sg s' = sg s) SOUNDS_ORDERED) as Hin
      by by apply list_elem_of_filter.
    rewrite Hf in Hin. by apply elem_of_nil in Hin.
  - assert (s' ∈ filter (λ s', sg s' = sg s) SOUNDS_ORDERED) as Hin
      by (rewrite Hf; left).
    apply list_elem_of_filter in Hin as [Hg Hin]. simpl.
    by rewrite (catalog_symbol_inj s' s Hin Hs Hg).
Qed.

(** *** The shuffle is a permutation *)

Lemma insert_Permutation {A} (l : list A) (j : nat) (x y : A) :
  l !! j = Some y → y :: <[j:=x]> l ≡ₚ x :: l.
Proof.
  intros Hj. assert (j < length l)%nat by by eapply lookup_lt_Some.
  rewrite insert_take_drop by done.
  rewrite <- (take_drop_middle l j y Hj) at 3.
  rewrite <- !Permutation_middle. apply Permutation_swap.
Qed.

Lemma swap_Permutation {A} (l : list A) (i j : nat) (x y : A) :
  l !! i = Some x → l !! j = Some y → <[j:=x]> (<[i:=y]> l) ≡ₚ l.
Proof.
  revert i j. induction l as [|a l IH]; intros [|i] [|j] Hi Hj;
    simplify_eq/=; try done.
  - by apply insert_Permutation.
  - by apply insert_Permutation.
  - by rewrite IH.
Qed.

Lemma shuffle_S (rand : nat → Q) (i n : nat) (options : list string) :
  shuffle (S i) rand n options
  = (oi ← options !! S i;
     oj ← at_index options (Qfloor (rand n * inject_Z (Z.of_nat (S i) + 1)));
     shuffle i rand (S n)
       (<[Z.to_nat (Qfloor (rand n * inject_Z (Z.of_nat (S i) + 1))):=oi]>
          (<[S i:=oj]> options))).
Proof. reflexivity. Qed.

Lemma shuffle_Permutation (rand : nat → Q) (i n : nat) (options : list string) :
  (∀ m, unit_draw (rand m)) → (i < length options)%nat →
  ∃ options', shuffle i rand n options = Some options' ∧ options' ≡ₚ options.
Proof.
  intros Hr. revert n options.
  induction i as [|i IH]; intros n options Hi; [by eexists|].
  rewrite shuffle_S.
  destruct (lookup_lt_is_Some_2 options (S i) Hi) as [oi Hoi].
  pose proof (Qfloor_unit_draw (rand n) (Z.of_nat (S i) + 1) (Hr n) ltac:(lia))
    as Hj.
  set (j := Qfloor (rand n * inject_Z (Z.of_nat (S i) + 1))) in *.
  destruct (lookup_lt_is_Some_2 options (Z.to_nat j) ltac:(lia)) as [oj Hoj].
  rewrite Hoi. simpl. unfold at_index.
  destruct (Z.ltb_spec j 0) as [|_]; [lia|]. rewrite Hoj. simpl.
  destruct (IH (S n) (<[Z.to_nat j:=oi]> (<[S i:=oj]> options)))
    as (options' & Hs & Hp).
  { rewrite !length_insert. lia. }
  exists options'. split; [done|].
  rewrite Hp. by apply swap_Permutation.
Qed.

(** *** The loop that picks the distractors *)

Lemma fams_nil : fams [] = ∅.
Proof. done. Qed.

Lemma elem_of_fams (l : list Sound) (f : string) :
  f ∈ fams l ↔ ∃ s, s ∈ l ∧ sfam s = f.
Proof.
  unfold fams. rewrite elem_of_list_to_set, list_elem_of_fmap. naive_solver.
Qed.

Lemma fams_delete (l : list Sound) (i : nat) (pick : Sound) :
  l !! i = Some pick → fams l = {[sfam pick]} ∪ fams (delete i l).
Proof.
  intros Hi. pose proof (delete_Permutation l i pick Hi) as Hp.
  apply set_eq. intros f.
  rewrite elem_of_union, elem_of_singleton, !elem_of_fams. split.
  - intros (s & Hs & <-). rewrite Hp in Hs.
    apply elem_of_cons in Hs as [->|Hs]; [by left|right; by exists s].
  - intros [->|(s & Hs & <-)].
    + exists pick. split; [by eapply list_elem_of_lookup_2|done].
    + exists s. split; [|done]. rewrite Hp. by right.
Qed.

Lemma fams_diff_used (X X' U : gset string) (f : string) :
  X = {[f]} ∪ X' → f ∈ U → X ∖ U ⊆ X' ∖ U.
Proof. intros -> Hf. set_solver. Qed.

Lemma fams_diff_fresh (X X' U : gset string) (f : string) :
  X = {[f]} ∪ X' → X ∖ U ⊆ {[f]} ∪ X' ∖ ({[f]} ∪ U).
Proof.
  intros -> x.
  rewrite !elem_of_difference, !elem_of_union, !elem_of_difference,
    !elem_of_union, !elem_of_singleton.
  destruct (decide (x = f)) as [|Hne]; [by left|].
  intros [[Hx|Hx] HU]; [done|]. right. split; [done|]. by intros [?|?].
Qed.

Lemma fams_empty_diff (U : gset string) : (∅ : gset string) ∖ U = ∅.
Proof. set_solver. Qed.

Lemma fams_fresh_disjoint (X' U : gset string) (f : string) :
  ({[f]} : gset string) ## X' ∖ ({[f]} ∪ U).
Proof. set_solver. Qed.

Lemma pick_distractors_S (k : nat) (rand : nat → Q) (n : nat)
    (totalPool distractors : list Sound) (famUsed : gset string) :
  pick_distractors (S k) rand n totalPool distractors famUsed
  = if decide ((length distractors < 3)%nat ∧ totalPool ≠ []) then
      let i := splice_start (length totalPool)
                 (rnd (rand n) 0 (Z.of_nat (length totalPool) - 1)) in
      pick ← totalPool !! i;
      if decide (sfam pick ∈ famUsed) then
        pick_distractors k rand (S n) (delete i totalPool) distractors famUsed
      else
        pick_distractors k rand (S n) (delete i totalPool)
          (distractors ++ [pick]) ({[sfam pick]} ∪ famUsed)
    else Some (distractors, n).
Proof. reflexivity. Qed.

Lemma pick_distractors_done (k : nat) (rand : nat → Q) (n : nat)
    (totalPool distractors : list Sound) (famUsed : gset string) :
  ¬ ((length distractors < 3)%nat ∧ totalPool ≠ []) →
  pick_distractors k rand n totalPool distractors famUsed
  = Some (distractors, n).
Proof. intros H. destruct k; simpl; by rewrite decide_False. Qed.

(** With a draw of [Math.random()], [splice] removes an entry of the
    pool. *)
Lemma splice_start_in_range (u : Q) (l : list Sound) :
  unit_draw u → l ≠ [] →
  (splice_start (length l) (rnd u 0 (Z.of_nat (length l) - 1)) < length l)%nat.
Proof.
  intros Hu Hl. assert (0 < length l)%nat by (destruct l; [done|simpl; lia]).
  pose proof (rnd_range u 0 (Z.of_nat (length l) - 1) Hu ltac:(lia)) as Hr.
  unfold splice_start.
  destruct (Z.ltb_spec (rnd u 0 (Z.of_nat (length l) - 1)) 0); lia.
Qed.

(** If the pool and the distractors found so far hold three families
    besides those in use, the loop ends with three distractors: those it
    adds are entries of the pool, of families that were not in use and
    differ from one another. *)
Lemma pick_distractors_spec (rand : nat → Q) (k n : nat)
    (P D : list Sound) (U : gset string) :
  (∀ m, unit_draw (rand m)) →
  (length P <= k)%nat → (length D <= 3)%nat →
  (3 <= length D + size (fams P ∖ U))%nat →
  ∃ E n',
    pick_distractors k rand n P D U = Some (D ++ E, n')
    ∧ length (D ++ E) = 3%nat
    ∧ E ⊆ P
    ∧ NoDup (sfam <$> E)
    ∧ ∀ e, e ∈ E → sfam e ∉ U.
Proof.
  intros Hr. revert n P D U.
  assert (Hdone : ∀ k n P D U,
    (length D <= 3)%nat → (3 <= length D + size (fams P ∖ U))%nat →
    ¬ ((length D < 3)%nat ∧ P ≠ []) →
    ∃ E n', pick_distractors k rand n P D U = Some (D ++ E, n')
      ∧ length (D ++ E) = 3%nat ∧ E ⊆ P ∧ NoDup (sfam <$> E)
      ∧ ∀ e, e ∈ E → sfam e ∉ U).
  { intros k' n P D U HD Hf Hno. exists [], n.
    rewrite app_nil_r, pick_distractors_done by done.
    split; [done|]. split.
    - destruct (decide (length D < 3)%nat) as [Hlt|]; [|lia].
      destruct P as [|p P]; [|by destruct Hno].
      rewrite fams_nil in Hf.
      rewrite fams_empty_diff, size_empty in Hf. lia.
    - split; [by intros x Hx%elem_of_nil|].
      split; [constructor|by intros e He%elem_of_nil]. }
  induction k as [|k IH]; intros n P D U HP HD Hf.
  - apply Hdone; [done..|]. destruct P; [|simpl in HP; lia]. by intros [_ ?].
  - destruct (decide ((length D < 3)%nat ∧ P ≠ [])) as [[Hlt Hne]|Hno];
      [|by apply Hdone].
    rewrite pick_distractors_S, decide_True by done. simpl.
    pose proof (splice_start_in_range (rand n) P (Hr n) Hne) as Hi.
    set (i := splice_start _ _) in *.
    destruct (lookup_lt_is_Some_2 P i Hi) as [pick Hpick].
    rewrite Hpick. simpl.
    pose proof (fams_delete P i pick Hpick) as HfP.
    pose proof (delete_Permutation P i pick Hpick) as Hperm.
    assert (length (delete i P) <= k)%nat.
    { rewrite length_delete by (by eexists). lia. }
    destruct (decide (sfam pick ∈ U)) as [Hin|Hnin].
    + destruct (IH (S n) (delete i P) D U) as (E & n' & Hs & Hl & HE & Hnd & HU);
        [done|done| |].
      { etrans; [exact Hf|]. apply Nat.add_le_mono_l, subseteq_size.
        by apply (fams_diff_used _ _ _ (sfam pick)). }
      exists E, n'. repeat split; try done.
      intros e He. rewrite Hperm. right. by apply HE.
    + destruct (IH (S n) (delete i P) (D ++ [pick]) ({[sfam pick]} ∪ U))
        as (E & n' & Hs & Hl & HE & Hnd & HU).
      * done.
      * rewrite length_app. simpl. lia.
      * rewrite length_app. simpl.
        assert (size (fams P ∖ U)
                <= 1 + size (fams (delete i P) ∖ ({[sfam pick]} ∪ U)))%nat; [|lia].
        rewrite <- (size_singleton (C:=gset string) (sfam pick)).
        rewrite <- size_union by apply fams_fresh_disjoint.
        apply subseteq_size. by apply fams_diff_fresh.
      * exists (pick :: E), n'. rewrite <- app_assoc in Hs, Hl. simpl in Hs, Hl.
        split; [done|]. split; [done|]. split; [|split].
        -- intros e [->|He]%elem_of_cons.
           ++ by eapply list_elem_of_lookup_2.
           ++ rewrite Hperm. right. by apply HE.
        -- csimpl. apply NoDup_cons. split; [|done].
           intros (e & Hfe & He)%list_elem_of_fmap.
           apply (HU e He). rewrite <- Hfe.
           apply elem_of_union. left. by apply elem_of_singleton.
        -- intros e [->|He]%elem_of_cons; [done|].
           intros HeU. apply (HU e He). apply elem_of_union. by right.
Qed.

Lemma backfill_done (fuel : nat) (rand : nat → Q) (n : nat) (target : Card)
    (distractors : list Sound) :
  (3 <= length distractors)%nat →
  backfill fuel rand n target distractors = Some (distractors, n).
Proof. intros H. destruct fuel; simpl; rewrite decide_False; (done || lia). Qed.

(** *** The pool *)

(** The pool is made from the symbols and families of the deck alone. *)
Lemma pool_of_sounds (deck : list Card) (target : Card) :
  sound_of <$> pool_of deck target
  = filter (λ s, sg s ≠ g target ∧ sfam s ≠ fam target) (sound_of <$> deck).
Proof.
  unfold pool_of. induction deck as [|c deck IH]; [done|]. csimpl.
  rewrite !filter_cons. simpl.
  destruct (decide (g c ≠ g target ∧ fam c ≠ fam target)); csimpl; by rewrite IH.
Qed.

Lemma extra_of_sounds (deck : list Card) (target : Card) :
  extra_of deck target
  = filter (λ s, sg s ≠ g target ∧ sfam s ≠ fam target
                 ∧ sg s ∉ sg <$> (sound_of <$> deck)) SOUNDS_ORDERED.
Proof.
  unfold extra_of. apply list_filter_iff. intros s.
  assert (Exists (λ c, g c = sg s) deck ↔ sg s ∈ sg <$> (sound_of <$> deck))
    as ->; [|done].
  rewrite Exists_exists, <- list_fmap_compose, list_elem_of_fmap.
  split; intros (c & ? & ?); exists c; naive_solver.
Qed.

Lemma total_pool_ext (deck deck' : list Card) (target target' : Card) :
  sound_of <$> deck = sound_of <$> deck' → sound_of target = sound_of target' →
  total_pool deck target = total_pool deck' target'.
Proof.
  intros Hd [= Hg Hf]. unfold total_pool.
  rewrite <- (length_fmap sound_of (pool_of deck target)).
  rewrite <- (length_fmap sound_of (pool_of deck' target')).
  by rewrite !pool_of_sounds, !extra_of_sounds, Hd, Hg, Hf.
Qed.

(** Every entry of the pool has another symbol and another family than the
    target, and is a sound of the deck or of the catalog. *)
Lemma elem_of_total_pool (deck : list Card) (target : Card) (s : Sound) :
  s ∈ total_pool deck target →
  sg s ≠ g target ∧ sfam s ≠ fam target
  ∧ (s ∈ sound_of <$> deck ∨ s ∈ SOUNDS_ORDERED).
Proof.
  unfold total_pool. intros [Hs|Hs]%elem_of_app.
  - rewrite pool_of_sounds in Hs. apply list_elem_of_filter in Hs. naive_solver.
  - destruct (decide _); [|by apply elem_of_nil in Hs].
    apply list_elem_of_filter in Hs. naive_solver.
Qed.

(** On every prefix of the catalog and for every target of the catalog,
    the pool holds three families besides the target's: checked on the
    catalog. *)
Lemma prefix_pool_families :
  Forall (λ n,
    Forall (λ t,
      (3 <= size (fams (total_pool (makeCard <$> take n SOUNDS_ORDERED)
                          (makeCard t)) ∖ {[sfam t]}))%nat)
      SOUNDS_ORDERED)
    (seq 0 29).
Proof. apply (bool_decide_unpack _). vm_compute. reflexivity. Qed.

Lemma deck_pool_families (deck : list Card) (target : Card) :
  deck_prefix_of_catalog deck → sound_of target ∈ SOUNDS_ORDERED →
  (3 <= size (fams (total_pool deck target) ∖ {[fam target]}))%nat.
Proof.
  intros [n0 Hd] Ht.
  set (n := (n0 `min` 28)%nat).
  assert (Hn : take n0 SOUNDS_ORDERED = take n SOUNDS_ORDERED).
  { destruct (decide (n0 <= 28)%nat).
    - subst n. by rewrite Nat.min_l.
    - subst n. rewrite Nat.min_r by lia. rewrite !take_ge; simpl; (done || lia). }
  rewrite Hn in Hd.
  rewrite (total_pool_ext deck (makeCard <$> take n SOUNDS_ORDERED)
             target (makeCard (sound_of target))).
  - pose proof prefix_pool_families as Hall.
    rewrite Forall_forall in Hall. specialize (Hall n).
    rewrite Forall_forall in Hall.
    by apply (Hall ltac:(apply elem_of_seq; lia) (sound_of target)).
  - by rewrite sound_of_makeCard_fmap.
  - by rewrite sound_of_makeCard.
Qed.

(** A deck with cards of four families has three besides the target's in
    its pool. *)
Lemma deck_pool_four_families (deck : list Card) (target : Card) :
  deck_from_catalog deck → sound_of target ∈ SOUNDS_ORDERED →
  (4 <= size (fams (sound_of <$> deck)))%nat →
  (3 <= size (fams (total_pool deck target) ∖ {[fam target]}))%nat.
Proof.
  intros Hcat Ht H4.
  assert (Hsub : fams (sound_of <$> deck) ∖ {[fam target]}
                 ⊆ fams (total_pool deck target) ∖ {[fam target]}).
  { intros f. rewrite !elem_of_difference, !elem_of_fams.
    intros [(s & Hs & <-) Hne]. split; [|done]. exists s. split; [|done].
    unfold total_pool. apply elem_of_app. left. rewrite pool_of_sounds.
    apply list_elem_of_filter.
    assert (sfam s ≠ fam target) as Hf
      by (intros Heq; apply Hne; by apply elem_of_singleton).
    split; [|done]. split; [|done]. intros Hg.
    apply list_elem_of_fmap in Hs as (c & -> & Hc).
    by rewrite (catalog_symbol_inj (sound_of c) (sound_of target)
                  (Hcat c Hc) Ht Hg) in Hf. }
  apply subseteq_size in Hsub.
  pose proof (size_difference_alt (fams (sound_of <$> deck)) {[fam target]})
    as Hd.
  assert (size (fams (sound_of <$> deck) ∩ {[fam target]}) <= 1)%nat.
  { rewrite <- (size_singleton (C:=gset string) (fam target)).
    apply subseteq_size, intersection_subseteq_r. }
  lia.
Qed.
(** *** The options *)

Lemma NoDup_fmap_through {A B C} (f : A → B) (h : A → C) (l : list A) :
  NoDup (f <$> l) →
  (∀ x y, x ∈ l → y ∈ l → h x = h y → f x = f y) →
  NoDup (h <$> l).
Proof.
  induction l as [|a l IH]; csimpl; intros Hnd Hfh; [constructor|].
  apply NoDup_cons in Hnd as [Ha Hnd]. apply NoDup_cons. split.
  - intros (y & Hay & Hy)%list_elem_of_fmap. apply Ha.
    rewrite (Hfh a y); [by apply list_elem_of_fmap_2|by left|by right|done].
  - apply IH; [done|]. intros x y Hx Hy. apply Hfh; by right.
Qed.

Lemma prefix_deck_from_catalog (deck : list Card) :
  deck_prefix_of_catalog deck → deck_from_catalog deck.
Proof.
  intros [n Hd] c Hc. apply (subseteq_take n). rewrite <- Hd.
  by apply list_elem_of_fmap_2.
Qed.

Lemma deck_is_prefix_of_catalog (st : State) :
  deck_is_prefix st → deck_prefix_of_catalog (deck st).
Proof. intros [Hd _]. by exists (activeCount st). Qed.

(** With three families besides the target's in the pool, the options are
    four distinct symbols of distinct families, the target's among them; the
    backfill loop is not entered. *)
Lemma buildOptions_spec (fuel : nat) (rand : nat → Q) (st : State) (target : Card) :
  (∀ m, unit_draw (rand m)) →
  deck_from_catalog (deck st) → sound_of target ∈ SOUNDS_ORDERED →
  (3 <= size (fams (total_pool (deck st) target) ∖ {[fam target]}))%nat →
  ∃ options,
    buildOptions fuel rand st target = Some options
    ∧ length options = 4%nat
    ∧ NoDup options
    ∧ g target ∈ options
    ∧ no_shared_family options.
Proof.
  intros Hr Hdeck Ht Hfam. unfold buildOptions.
  set (P := total_pool (deck st) target) in *.
  destruct (pick_distractors_spec rand (length P) 0 P [] {[fam target]} Hr)
    as (E & n & Hs & Hl & HE & Hnd & HU); [done|simpl; lia|done|].
  simpl in Hs, Hl. rewrite Hs. simpl. rewrite backfill_done by lia. simpl.
  rewrite length_fmap, Hl. simpl.
  destruct (shuffle_Permutation rand 3 n (g target :: (sg <$> E)) Hr)
    as (options & Hsh & Hp); [simpl; rewrite length_fmap; lia|].
  exists options. split; [done|].
  (* the sounds behind the options: the target and the distractors *)
  set (L := sound_of target :: E).
  assert (HL : g target :: (sg <$> E) = sg <$> L) by done.
  assert (Hcat : ∀ s, s ∈ L → s ∈ SOUNDS_ORDERED).
  { intros s [->|Hs']%elem_of_cons; [done|].
    destruct (elem_of_total_pool _ _ _ (HE s Hs')) as (_ & _ & [Hd|Hc]); [|done].
    apply list_elem_of_fmap in Hd as (c & -> & Hc). by apply Hdeck. }
  assert (HfL : NoDup (sfam <$> L)).
  { subst L. csimpl. apply NoDup_cons. split; [|done].
    intros (e & Hfe & He)%list_elem_of_fmap. apply (HU e He).
    apply elem_of_singleton. by rewrite <- Hfe. }
  assert (HgL : NoDup (sg <$> L)).
  { apply (NoDup_fmap_through sfam sg L HfL). intros x y Hx Hy Hxy.
    by rewrite (catalog_symbol_inj x y (Hcat x Hx) (Hcat y Hy) Hxy). }
  split; [by rewrite Hp; simpl; rewrite length_fmap, Hl|].
  split; [by rewrite Hp, HL|].
  split; [rewrite Hp; by left|].
  intros a b Ha Hb Hab. rewrite Hp, HL in Ha, Hb.
  apply list_elem_of_fmap in Ha as (x & -> & Hx).
  apply list_elem_of_fmap in Hb as (y & -> & Hy).
  rewrite !family_of_catalog by by apply Hcat.
  intros [= Hxy]. apply Hab. f_equal.
  by apply (NoDup_fmap_elem_inj sfam L x y HfL).
Qed.

(** C6: for every sequence of draws and every target made of a sound of
    the catalog, [buildOptions] returns exactly 4 pairwise distinct symbols,
    one of which is the target's, on every deck that is a prefix of the
    catalog, as the decks of a game are; and on every deck of catalog cards
    that holds cards of at least 4 distinct families, no two of the symbols
    returned share a family.  With this catalog the families are distinct on
    the prefix decks too.  The backfill loop is not entered, so the result
    does not depend on the bound on its iterations. *)
Theorem buildOptions_four_distinct_symbols (fuel : nat) (rand : nat → Q)
    (st : State) (target : Card) :
  (∀ m, unit_draw (rand m)) → sound_of target ∈ SOUNDS_ORDERED →
  (deck_prefix_of_catalog (deck st) →
   ∃ options,
     buildOptions fuel rand st target = Some options
     ∧ length options = 4%nat ∧ NoDup options ∧ g target ∈ options
     ∧ no_shared_family options)
  ∧ (deck_from_catalog (deck st) →
     (4 <= size (fams (sound_of <$> deck st)))%nat →
     ∃ options,
       buildOptions fuel rand st target = Some options
       ∧ length options = 4%nat ∧ NoDup options ∧ g target ∈ options
       ∧ no_shared_family options).
Proof.
  intros Hr Ht. split.
  - intros Hpre. apply buildOptions_spec; [done| |done|].
    + by apply prefix_deck_from_catalog.
    + by apply deck_pool_families.
  - intros Hcat H4. apply buildOptions_spec; [done..|].
    by apply deck_pool_four_families.
Qed.

Lemma buildOptions_four_distinct_symbols_witness :
  (∃ options,
     buildOptions 0 some_draws
       (set_deck (take 2 (deck at_first_question)) at_first_question)
       (makeCard (mkSound "ch" "ch"))
     = Some options
     ∧ length options = 4%nat ∧ NoDup options ∧ "ch" ∈ options
     ∧ no_shared_family options)
  ∧ (∃ options,
       buildOptions 0 some_draws at_first_question
         (makeCard (mkSound "ch" "ch"))
       = Some options
       ∧ length options = 4%nat ∧ NoDup options ∧ "ch" ∈ options
       ∧ no_shared_family options).
Proof.
  assert (Hr : ∀ m, unit_draw (some_draws m)).
  { intros m. unfold unit_draw, some_draws, Qle, Qlt. simpl.
    pose proof (Nat.mod_upper_bound (m * 37) 101). lia. }
  split.
  - destruct (buildOptions_four_distinct_symbols 0 some_draws
                (set_deck (take 2 (deck at_first_question)) at_first_question)
                (makeCard (mkSound "ch" "ch")) Hr) as [Hprefix _]; [left|].
    apply Hprefix. by exists 2%nat.
  - destruct (buildOptions_four_distinct_symbols 0 some_draws
                at_first_question (makeCard (mkSound "ch" "ch")) Hr)
      as [_ Hfour]; [left|].
    apply Hfour.
    + apply prefix_deck_from_catalog. by exists 4%nat.
    + vm_compute. lia.
Defined.

(** * Further properties of the code *)

(** ** Random integers and intervals *)



Lemma box_cases (b : Z) :
  1 <= b <= 5 → b = 1 ∨ b = 2 ∨ b = 3 ∨ b = 4 ∨ b = 5.
Proof. lia. Qed.

(** X2: the intervals of the boxes do not overlap and grow with the box: of
    two cards scheduled at the same question, the one in the higher box is
    due strictly later, whatever the draws. *)
Theorem higher_box_is_due_later (u u' : Q) (q : Z) (c c' : Card) :
  unit_draw u → unit_draw u' →
  1 <= box c → box c < box c' → box c' <= 5 →
  dueAt (schedule u q c) < dueAt (schedule u' q c').
Proof.
  intros Hu Hu' H1 Hlt H5. rewrite !schedule_dueAt.
  destruct (box_cases (box c) ltac:(lia)) as [Hb|[Hb|[Hb|[Hb|Hb]]]];
    destruct (box_cases (box c') ltac:(lia)) as [Hb'|[Hb'|[Hb'|[Hb'|Hb']]]];
    rewrite Hb, Hb' in *; try lia; simpl;
    match goal with |- _ + rnd _ ?lo ?hi < _ + rnd _ ?lo' ?hi' =>
      pose proof (rnd_range u lo hi Hu ltac:(lia));
      pose proof (rnd_range u' lo' hi' Hu' ltac:(lia)) end; lia.
Qed.

Lemma higher_box_is_due_later_witness :
  dueAt (schedule (9 # 10) 7 (mk "a" 2 0)) < dueAt (schedule 0 7 (mk "b" 3 0)).
Proof.
  apply higher_box_is_due_later; simpl; try lia;
    split; (discriminate || reflexivity).
Defined.

(** ** What an answer and a timeout do to the cards *)

Lemma onAnswerClick_correct_deck (st st' : State) (i : nat) (c : Card) (u : Q) :
  current st = Some i → deck st !! i = Some c →
  onAnswerClick (g c) u st = Some st' →
  deck st'
  = <[i:=schedule u (questionIndex st)
           (set_box (Z.min 5 (box c + 1))
              (stats_correct_incr (stats_asked_incr c)))]> (deck st)
  ∨ ∃ next,
      deck st'
      = <[i:=schedule u (questionIndex st)
               (set_box (Z.min 5 (box c + 1))
                  (stats_correct_incr (stats_asked_incr c)))]> (deck st)
        ++ [makeCard next].
Proof.
  intros Hi Hc Hs. unfold onAnswerClick in Hs. rewrite Hi in Hs. simpl in Hs.
  rewrite Hc in Hs. simpl in Hs. rewrite decide_True in Hs by done.
  destruct (Js.to_Z _) as [pts|]; simpl in Hs; [|done].
  injection Hs as <-. simpl. case_decide; [|by left].
  match goal with |- context [unlockNext ?s] =>
    destruct (unlockNext_deck s) as [->|[next ->]] end; [by left|].
  right. by exists next.
Qed.

Lemma onAnswerClick_incorrect_deck (st st' : State) (i : nat) (c : Card)
    (chosen : string) (u : Q) :
  current st = Some i → deck st !! i = Some c → chosen ≠ g c →
  onAnswerClick chosen u st = Some st' →
  deck st'
  = <[i:=schedule u (questionIndex st) (set_box 1 (stats_asked_incr c))]>
      (deck st).
Proof.
  intros Hi Hc Hne Hs. unfold onAnswerClick in Hs. rewrite Hi in Hs.
  simpl in Hs. rewrite Hc in Hs. simpl in Hs.
  rewrite decide_False in Hs by done. by injection Hs as <-.
Qed.

(** X3: after an incorrect answer or a timeout the card asked is in box 1
    and due again at one of the next two questions. *)
Theorem missed_card_is_due_within_two (st st' : State) (i : nat) (c : Card) (u : Q) :
  unit_draw u → current st = Some i → deck st !! i = Some c →
  timesUp u st = Some st'
  ∨ (∃ chosen, chosen ≠ g c ∧ onAnswerClick chosen u st = Some st') →
  ∃ c', deck st' !! i = Some c' ∧ g c' = g c ∧ box c' = 1
        ∧ questionIndex st + 1 <= dueAt c' <= questionIndex st + 2.
Proof.
  intros Hu Hi Hc Hs.
  assert (i < length (deck st))%nat by by eapply lookup_lt_Some.
  assert (Hrange : ∀ d, questionIndex st + 1
                        <= dueAt (schedule u (questionIndex st) (set_box 1 d))
                        <= questionIndex st + 2).
  { intros d. rewrite schedule_dueAt. simpl.
    pose proof (rnd_range u 1 2 Hu ltac:(lia)). lia. }
  destruct Hs as [Hs|(chosen & Hne & Hs)].
  - destruct (timesUp_effect u st st' i c Hi Hc Hs) as (-> & _).
    eexists. split; [by apply list_lookup_insert_eq|].
    destruct (schedule_frame u (questionIndex st) (set_box 1 c))
      as (-> & _ & -> & _).
    split; [done|]. split; [done|]. apply Hrange.
  - rewrite (onAnswerClick_incorrect_deck st st' i c chosen u Hi Hc Hne Hs).
    eexists. split; [by apply list_lookup_insert_eq|].
    destruct (schedule_frame u (questionIndex st)
                (set_box 1 (stats_asked_incr c))) as (-> & _ & -> & _).
    split; [done|]. split; [done|]. apply Hrange.
Qed.

Lemma missed_card_is_due_within_two_witness :
  ∃ st' c',
    timesUp (1 # 2) at_first_question = Some st'
    ∧ deck st' !! 0%nat = Some c' ∧ box c' = 1 ∧ 2 <= dueAt c' <= 3.
Proof.
  destruct (timesUp (1 # 2) at_first_question) as [st'|] eqn:Hs;
    [|vm_compute in Hs; discriminate Hs].
  destruct (missed_card_is_due_within_two at_first_question st' 0%nat
              (makeCard (mkSound "ch" "ch")) (1 # 2))
    as (c' & Hc' & _ & Hb & Hd);
    [split; [discriminate|reflexivity] | reflexivity | reflexivity
    | left; exact Hs |].
  exists st', c'. repeat split; try assumption; apply Hd.
Defined.

(** X4: a correct answer moves the card asked one box up, 5 at most, counts
    the answer in its statistics, and makes it due again not before the
    third and not after the fortieth question from the current one. *)
Theorem correct_answer_promotes_card (st st' : State) (i : nat) (c : Card) (u : Q) :
  unit_draw u → current st = Some i → deck st !! i = Some c →
  1 <= box c <= 5 →
  onAnswerClick (g c) u st = Some st' →
  ∃ c', deck st' !! i = Some c' ∧ g c' = g c
        ∧ box c' = Z.min 5 (box c + 1)
        ∧ stats_asked (stats c') = stats_asked (stats c) + 1
        ∧ stats_correct (stats c') = stats_correct (stats c) + 1
        ∧ questionIndex st + 3 <= dueAt c' <= questionIndex st + 40.
Proof.
  intros Hu Hi Hc Hb Hs.
  assert (i < length (deck st))%nat by by eapply lookup_lt_Some.
  set (c1 := set_box (Z.min 5 (box c + 1))
               (stats_correct_incr (stats_asked_incr c))).
  exists (schedule u (questionIndex st) c1). split.
  - destruct (onAnswerClick_correct_deck st st' i c u Hi Hc Hs) as [->|[next ->]].
    + by apply list_lookup_insert_eq.
    + apply lookup_app_l_Some. by apply list_lookup_insert_eq.
  - destruct (schedule_frame u (questionIndex st) c1) as (-> & _ & -> & ->).
    repeat (split; [done|]).
    rewrite schedule_dueAt. subst c1. simpl.
    destruct (box_cases (Z.min 5 (box c + 1)) ltac:(lia))
      as [Hb'|[Hb'|[Hb'|[Hb'|Hb']]]]; rewrite Hb'; simpl; [lia|..];
      match goal with |- _ <= _ + rnd _ ?lo ?hi <= _ =>
        pose proof (rnd_range u lo hi Hu ltac:(lia)) end; lia.
Qed.

Lemma correct_answer_promotes_card_witness :
  ∃ st' c',
    onAnswerClick "ch" (1 # 2) at_first_question = Some st'
    ∧ deck st' !! 0%nat = Some c' ∧ box c' = 2 ∧ 4 <= dueAt c' <= 41.
Proof.
  destruct (onAnswerClick "ch" (1 # 2) at_first_question) as [st'|] eqn:Hs;
    [|vm_compute in Hs; discriminate Hs].
  destruct (correct_answer_promotes_card at_first_question st' 0%nat
              (makeCard (mkSound "ch" "ch")) (1 # 2))
    as (c' & Hc' & _ & Hb & _ & _ & Hd);
    [split; [discriminate|reflexivity] | reflexivity | reflexivity
    | simpl; lia | exact Hs |].
  exists st', c'. repeat split; try assumption; apply Hd.
Defined.

Lemma insert_keeps_other_cards (l : list Card) (i : nat) (c c' : Card) :
  l !! i = Some c → sound_of c' = sound_of c →
  ∀ j d, l !! j = Some d →
    ∃ d', <[i:=c']> l !! j = Some d' ∧ sound_of d' = sound_of d
          ∧ (i ≠ j → d' = d).
Proof.
  intros Hc Hs j d Hd. destruct (decide (i = j)) as [->|Hne].
  - exists c'. split; [apply list_lookup_insert_eq; by eapply lookup_lt_Some|].
    split; [congruence|done].
  - exists d. by rewrite list_lookup_insert_ne.
Qed.

(** X5: no event removes, moves or renames a card: after any event every
    card is at its position with its symbol and family, every card but the
    current one is unchanged, and the deck is at most one card longer. *)
Theorem events_touch_only_the_current_card (ev : event) (st st' : State) :
  step ev st = Some st' →
  (length (deck st) <= length (deck st') <= length (deck st) + 1)%nat
  ∧ ∀ j d, deck st !! j = Some d →
      ∃ d', deck st' !! j = Some d' ∧ g d' = g d ∧ fam d' = fam d
            ∧ (current st ≠ Some j → d' = d).
Proof.
  intros Hs.
  assert (Hins : ∀ i c c', current st = Some i → deck st !! i = Some c →
            sound_of c' = sound_of c →
            (deck st' = <[i:=c']> (deck st)
             ∨ ∃ next, deck st' = <[i:=c']> (deck st) ++ [makeCard next]) →
            (length (deck st) <= length (deck st') <= length (deck st) + 1)%nat
            ∧ ∀ j d, deck st !! j = Some d →
                ∃ d', deck st' !! j = Some d' ∧ g d' = g d ∧ fam d' = fam d
                      ∧ (current st ≠ Some j → d' = d)).
  { intros i c c' Hi Hc Hsnd Hd. split.
    - destruct Hd as [->|[next ->]];
        rewrite ?length_app, length_insert; simpl; lia.
    - intros j d Hj.
      destruct (insert_keeps_other_cards _ i c c' Hc Hsnd j d Hj)
        as (d' & Hd' & [= Hg Hf] & Hsame).
      exists d'. split.
      + destruct Hd as [->|[next ->]]; [done|by apply lookup_app_l_Some].
      + repeat split; [done..|]. intros Hne. apply Hsame. congruence. }
  destruct ev as [|chosen u|u]; simpl in Hs.
  - next_inv Hs. simpl. split; [lia|]. intros j d Hj. by exists d.
  - destruct (current st) as [i|] eqn:Hi; [|by unfold onAnswerClick in Hs; rewrite Hi in Hs].
    destruct (deck st !! i) as [c|] eqn:Hc;
      [|by unfold onAnswerClick in Hs; rewrite Hi in Hs; simpl in Hs; rewrite Hc in Hs].
    destruct (decide (chosen = g c)) as [->|Hne].
    + eapply (Hins i c); [done..| |by eapply onAnswerClick_correct_deck].
      by rewrite sound_of_schedule.
    + eapply (Hins i c); [done..| |left; by eapply onAnswerClick_incorrect_deck].
      by rewrite sound_of_schedule.
  - destruct (current st) as [i|] eqn:Hi; [|by unfold timesUp in Hs; rewrite Hi in Hs].
    destruct (deck st !! i) as [c|] eqn:Hc;
      [|by unfold timesUp in Hs; rewrite Hi in Hs; simpl in Hs; rewrite Hc in Hs].
    destruct (timesUp_effect u st st' i c Hi Hc Hs) as (Hd & _).
    eapply (Hins i c); [done..| |by left]. by rewrite sound_of_schedule.
Qed.

Lemma events_touch_only_the_current_card_witness :
  ∃ st' d',
    step (Answer "ch" (1 # 2)) at_first_question = Some st'
    ∧ deck st' !! 1%nat = Some d'
    ∧ d' = makeCard (mkSound "ou" "ou").
Proof.
  destruct (step (Answer "ch" (1 # 2)) at_first_question) as [st'|] eqn:Hs;
    [|vm_compute in Hs; discriminate Hs].
  destruct (events_touch_only_the_current_card _ _ _ Hs) as [_ Hframe].
  destruct (Hframe 1%nat (makeCard (mkSound "ou" "ou")))
    as (d' & Hd' & _ & _ & Hsame); [reflexivity|].
  exists st', d'. split; [reflexivity|]. split; [exact Hd'|].
  apply Hsame. discriminate.
Defined.

(** ** Sessions: counters and progression *)

(** X6: as long as the catalog is not exhausted, a sound is unlocked at
    every fifth correct answer: from a counter [n] below 5, after [k]
    correct answers (and any other events) [(n + k) / 5] sounds have been
    unlocked and the counter is [(n + k) mod 5]. *)
Theorem every_fifth_correct_answer_unlocks (evs : list event) (st st' : State) (k : nat) :
  0 <= correctSinceUnlock st < 5 →
  Z.of_nat (activeCount st) + (correctSinceUnlock st + Z.of_nat k) / 5
    <= Z.of_nat (length SOUNDS_ORDERED) →
  run evs st = Some (st', k) →
  Z.of_nat (activeCount st')
  = Z.of_nat (activeCount st) + (correctSinceUnlock st + Z.of_nat k) / 5
  ∧ correctSinceUnlock st' = (correctSinceUnlock st + Z.of_nat k) mod 5.
Proof.
  revert st k. induction evs as [|ev evs IH]; intros st k Hn Ha Hr; simpl in Hr.
  - injection Hr as <- <-. rewrite Z.add_0_r.
    rewrite Z.div_small, Z.mod_small by lia. lia.
  - destruct (step ev st) as [st1|] eqn:Hs; simpl in Hr; [|done].
    destruct (run evs st1) as [[st2 k1]|] eqn:Hr1; simpl in Hr; [|done].
    injection Hr as <- <-.
    destruct (is_correct ev st) eqn:Hc.
    + destruct (is_correct_true _ _ Hc) as (c & u & Hcur & ->). simpl in Hs.
      destruct (correct_answer_progress st st1 c u Hcur Hs) as (Hlt & Hunlock & _).
      replace (Z.of_nat (1 + k1)) with (1 + Z.of_nat k1) in * by lia.
      destruct (decide (correctSinceUnlock st + 1 < 5)) as [H5|H5].
      * destruct (Hlt H5) as (Hn1 & Ha1 & _).
        destruct (IH st1 k1) as [IH1 IH2]; [lia| |done|].
        { rewrite Hn1, Ha1.
          by replace (correctSinceUnlock st + 1 + Z.of_nat k1)
            with (correctSinceUnlock st + (1 + Z.of_nat k1)) by lia. }
        rewrite IH1, IH2, Hn1, Ha1.
        by replace (correctSinceUnlock st + 1 + Z.of_nat k1)
          with (correctSinceUnlock st + (1 + Z.of_nat k1)) by lia.
      * assert (correctSinceUnlock st = 4) as H4 by lia. rewrite H4 in *.
        assert (activeCount st < length SOUNDS_ORDERED)%nat as Hav.
        { assert (1 <= (4 + (1 + Z.of_nat k1)) / 5)
            by (apply Z.div_le_lower_bound; lia). lia. }
        destruct Hunlock as (Hn1 & Ha1 & _); [lia|done|].
        assert ((4 + (1 + Z.of_nat k1)) / 5 = 1 + Z.of_nat k1 / 5) as Hd
          by (replace (4 + (1 + Z.of_nat k1)) with (Z.of_nat k1 + 1 * 5) by lia;
              rewrite Z.div_add by lia; lia).
        assert ((4 + (1 + Z.of_nat k1)) mod 5 = Z.of_nat k1 mod 5) as Hm
          by (replace (4 + (1 + Z.of_nat k1)) with (Z.of_nat k1 + 1 * 5) by lia;
              by rewrite Z.mod_add by lia).
        destruct (IH st1 k1) as [IH1 IH2]; [lia| |done|].
        { rewrite Hn1, Ha1, Z.add_0_l. lia. }
        rewrite IH1, IH2, Hn1, Ha1, Hd, Hm, Z.add_0_l. lia.
    + destruct (other_step_progress ev st st1 Hc Hs) as [Hn1 Ha1].
      destruct (IH st1 k1) as [IH1 IH2]; [lia| |done|].
      { rewrite Hn1, Ha1. exact Ha. }
      rewrite IH1, IH2, Hn1, Ha1. done.
Qed.

Lemma every_fifth_correct_answer_unlocks_witness :
  run five_correct at_first_question = Some (after_five_correct, 5%nat)
  ∧ Z.of_nat (activeCount after_five_correct) = 4 + (0 + 5) / 5
  ∧ correctSinceUnlock after_five_correct = (0 + 5) mod 5.
Proof.
  assert (Hr : run five_correct at_first_question
               = Some (after_five_correct, 5%nat)) by (vm_compute; reflexivity).
  split; [exact Hr|].
  apply (every_fifth_correct_answer_unlocks five_correct at_first_question
           after_five_correct 5); [simpl; lia | vm_compute; discriminate | exact Hr].
Defined.

Lemma step_counts (ev : event) (st st' : State) :
  step ev st = Some st' →
  questionIndex st' = questionIndex st + (if is_next ev then 1 else 0)
  ∧ asked st' = asked st + (if is_next ev then 0 else 1)
  ∧ right_ st' = right_ st + (if is_correct ev st then 1 else 0).
Proof.
  intros Hs. destruct ev as [|chosen u|u]; simpl in Hs.
  - next_inv Hs. simpl. lia.
  - unfold is_correct, current_card.
    answer_inv Hs; simpl; rewrite Hcard; simpl.
    + rewrite bool_decide_eq_true_2 by done.
      case_decide; [|simpl; lia].
      match goal with |- context [unlockNext ?s] =>
        destruct (unlockNext_frame s) as (-> & _ & _ & _ & -> & -> & _) end.
      simpl. lia.
    + rewrite bool_decide_eq_false_2 by done. lia.
  - timeout_inv Hs. simpl. unfold is_correct.
    destruct (current_card st); lia.
Qed.

(** X7: along any sequence of events [questionIndex] counts the questions
    shown, [asked] the answers and timeouts, and [right] the correct
    answers. *)
Theorem counters_count_events (evs : list event) (st st' : State) (k : nat) :
  run evs st = Some (st', k) →
  questionIndex st' = questionIndex st + count_events is_next evs
  ∧ asked st' = asked st + count_events (λ ev, negb (is_next ev)) evs
  ∧ right_ st' = right_ st + Z.of_nat k.
Proof.
  revert st k. induction evs as [|ev evs IH]; intros st k Hr; simpl in Hr.
  - injection Hr as <- <-. simpl. lia.
  - destruct (step ev st) as [st1|] eqn:Hs; simpl in Hr; [|done].
    destruct (run evs st1) as [[st2 k1]|] eqn:Hr1; simpl in Hr; [|done].
    injection Hr as <- <-.
    destruct (IH st1 k1 Hr1) as (-> & -> & ->).
    destruct (step_counts ev st st1 Hs) as (-> & -> & ->). simpl.
    destruct (is_next ev), (is_correct ev st); simpl; lia.
Qed.

Lemma counters_count_events_witness :
  questionIndex after_five_correct
  = questionIndex at_first_question + count_events is_next five_correct
  ∧ asked after_five_correct
    = asked at_first_question
      + count_events (λ ev, negb (is_next ev)) five_correct
  ∧ right_ after_five_correct = right_ at_first_question + 5.
Proof.
  apply (counters_count_events five_correct at_first_question
           after_five_correct 5).
  vm_compute. reflexivity.
Defined.

Lemma counters_ok_step (ev : event) (st st' : State) :
  counters_ok st → step ev st = Some st' → counters_ok st'.
Proof.
  unfold counters_ok. intros Hok Hs. destruct ev as [|chosen u|u]; simpl in Hs.
  - by next_inv Hs.
  - answer_inv Hs; simpl; [|lia].
    case_decide as H5; simpl in H5; [|simpl; lia].
    match goal with |- context [unlockNext ?s] =>
      destruct (unlockNext_frame s) as (_ & _ & _ & _ & -> & -> & -> & ->);
      destruct (unlockNext_progress s) as [(_ & _ & -> & _)|[_ ->]] end;
      simpl; lia.
  - timeout_inv Hs. simpl. lia.
Qed.

(** X8: in a session the counters stay consistent: the streak is between 0
    and the number of correct answers, which is at most the number of
    questions asked, the castle stage is between 0 and 8, and the counter of
    correct answers since the last unlock is not negative. *)
Theorem session_counters_consistent (st : State) (evs : list event) (st' : State) (k : nat) :
  run evs (initDeck st) = Some (st', k) → counters_ok st'.
Proof.
  intros Hr.
  apply (run_invariant counters_ok evs (initDeck st) st' k);
    [apply counters_ok_step | | done].
  unfold counters_ok. simpl. lia.
Qed.

Lemma session_counters_consistent_witness : counters_ok after_five_correct.
Proof.
  apply (session_counters_consistent state (Next :: five_correct)
           after_five_correct 5).
  vm_compute. reflexivity.
Defined.

(** ** The statistics of the cards *)

Lemma total_app (f : Card → Z) (l1 l2 : list Card) :
  total f (l1 ++ l2) = total f l1 + total f l2.
Proof. induction l1 as [|c l1 IH]; simpl; [done|]. rewrite IH. lia. Qed.

Lemma total_insert (f : Card → Z) (l : list Card) (i : nat) (c c' : Card) :
  l !! i = Some c → total f (<[i:=c']> l) = total f l - f c + f c'.
Proof.
  revert i. induction l as [|d l IH]; intros [|i] Hc; simplify_eq/=; [lia|].
  rewrite (IH i Hc). lia.
Qed.

Lemma total_makeCard (f : Card → Z) (l : list Sound) :
  (∀ s, f (makeCard s) = 0) → total f (makeCard <$> l) = 0.
Proof. intros Hf. induction l as [|s l IH]; csimpl; [done|]. rewrite Hf, IH. lia. Qed.

Lemma stats_ok_unlockNext (st : State) : stats_ok st → stats_ok (unlockNext st).2.
Proof.
  unfold stats_ok. intros (Hc & Ha & Hall).
  destruct (unlockNext_frame st) as (_ & _ & _ & _ & -> & -> & _).
  destruct (unlockNext_deck st) as [->|[next ->]]; [done|].
  rewrite !total_app. simpl. split; [lia|]. split; [lia|].
  apply Forall_app. split; [done|]. apply Forall_singleton. simpl. lia.
Qed.

Lemma stats_schedule (u : Q) (q : Z) (c : Card) :
  stats (schedule u q c) = stats c.
Proof. by destruct (schedule_frame u q c) as (_ & _ & _ & ->). Qed.

(** Replacing a card by one with [da] more questions and [dr] more correct
    answers, in a state whose counters grow accordingly. *)
Lemma stats_ok_insert (st s' : State) (i : nat) (c c' : Card) (da dr : Z) :
  stats_ok st → deck st !! i = Some c →
  deck s' = <[i:=c']> (deck st) →
  right_ s' = right_ st + dr → asked st + da <= asked s' →
  stats_asked (stats c') = stats_asked (stats c) + da →
  stats_correct (stats c') = stats_correct (stats c) + dr →
  0 <= dr <= da →
  stats_ok s'.
Proof.
  intros (Hc & Ha & Hall) Hcard Hd Hr Hask Hsa Hsc Hdr. unfold stats_ok.
  rewrite Hd, !(total_insert _ _ _ _ _ Hcard), Hr.
  apply (Forall_lookup_1 _ _ _ _ Hall) in Hcard as Hci. simpl in Hci.
  split; [lia|]. split; [lia|]. apply Forall_insert; [done|]. lia.
Qed.

Lemma stats_ok_step (ev : event) (st st' : State) :
  stats_ok st → step ev st = Some st' → stats_ok st'.
Proof.
  intros Hok Hs. destruct ev as [|chosen u|u]; simpl in Hs.
  - by next_inv Hs.
  - answer_inv Hs.
    + assert (Hgoal : ∀ s s', stats_ok s' → deck s = deck s' →
                right_ s = right_ s' → asked s = asked s' → stats_ok s)
        by (unfold stats_ok; intros s s' H Hd Hr Ha; by rewrite Hd, Hr, Ha).
      match goal with |- context [deck (if ?d then (unlockNext ?s).2 else _)] =>
        apply (Hgoal _ (if d then (unlockNext s).2 else s)); [|reflexivity..];
        assert (Hins : stats_ok s) end.
      { eapply (stats_ok_insert st _ i c _ 1 1 Hok Hcard);
          [reflexivity|reflexivity|simpl; lia|..|lia];
          by rewrite stats_schedule. }
      case_decide; [|exact Hins].
      by apply stats_ok_unlockNext.
    + eapply (stats_ok_insert st _ i c _ 1 0 Hok Hcard);
        [reflexivity|simpl; lia|simpl; lia|..|lia];
        rewrite stats_schedule; simpl; lia.
  - timeout_inv Hs.
    eapply (stats_ok_insert st _ i c _ 0 0 Hok Hcard);
      [reflexivity|simpl; lia|simpl; lia|..|lia];
      rewrite stats_schedule; simpl; lia.
Qed.

(** X9: in a session the statistics of the cards add up: the correct counts
    of the cards sum to [right], the asked counts sum to at most [asked]
    (a timeout counts in [asked] only), and no card has more correct answers
    than questions. *)
Theorem card_statistics_add_up (st : State) (evs : list event) (st' : State) (k : nat) :
  run evs (initDeck st) = Some (st', k) →
  total (λ c, stats_correct (stats c)) (deck st') = right_ st'
  ∧ total (λ c, stats_asked (stats c)) (deck st') <= asked st'
  ∧ Forall (λ c, 0 <= stats_correct (stats c) <= stats_asked (stats c)) (deck st').
Proof.
  intros Hr.
  apply (run_invariant stats_ok evs (initDeck st) st' k);
    [apply stats_ok_step | | done].
  unfold stats_ok. simpl. rewrite !total_makeCard by done.
  split; [done|]. split; [done|].
  apply Forall_fmap, Forall_true. intros s. simpl. lia.
Qed.

Lemma card_statistics_add_up_witness :
  total (λ c, stats_correct (stats c)) (deck after_five_correct)
  = right_ after_five_correct
  ∧ total (λ c, stats_asked (stats c)) (deck after_five_correct)
    <= asked after_five_correct
  ∧ Forall (λ c, 0 <= stats_correct (stats c) <= stats_asked (stats c))
      (deck after_five_correct).
Proof.
  apply (card_statistics_add_up state (Next :: five_correct)
           after_five_correct 5).
  vm_compute. reflexivity.
Defined.

(** ** The selector breaks ties by the order of the deck *)

Section sort_by_stable.
Context {A : Type} (cmp : A → A → Z) (idx : A → nat).
Hypothesis cmp_trans : ∀ a b c, cmp a b <= 0 → cmp b c <= 0 → cmp a c <= 0.
Hypothesis cmp_sflip : ∀ a b, 0 < cmp a b → cmp b a < 0.

Lemma first_by_not_after (a b : A) : first_by cmp idx a b → cmp a b <= 0.
Proof. intros [?|[? _]]; lia. Qed.

Lemma insert_by_stable (x : A) (s : list A) :
  StronglySorted (first_by cmp idx) s →
  Forall (λ y, (idx x < idx y)%nat) s →
  StronglySorted (first_by cmp idx) (insert_by cmp x s).
Proof.
  induction s as [|y s IH]; intros Hs Hx; simpl.
  - by repeat constructor.
  - apply StronglySorted_inv in Hs as [Hs Hy].
    apply Forall_cons in Hx as [Hxy Hx].
    destruct (cmp x y <=? 0) eqn:Hc.
    + apply Z.leb_le in Hc. constructor; [by constructor|].
      assert (Hfirst : ∀ z, cmp x z <= 0 → (idx x < idx z)%nat →
                first_by cmp idx x z).
      { intros z Hz Hi. destruct (decide (cmp x z < 0)); [by left|].
        right. split; lia. }
      constructor; [by apply Hfirst|].
      rewrite Forall_forall in Hy, Hx. apply Forall_forall. intros z Hz.
      apply Hfirst; [|by apply Hx].
      eapply cmp_trans; [exact Hc|]. by apply first_by_not_after, Hy.
    + apply Z.leb_gt in Hc. constructor; [by apply IH|].
      rewrite insert_by_perm. constructor; [|done].
      left. by apply cmp_sflip.
Qed.

Lemma sort_by_stable (l : list A) :
  StronglySorted (λ a b, (idx a < idx b)%nat) l →
  StronglySorted (first_by cmp idx) (sort_by cmp l).
Proof.
  induction l as [|x l IH]; intros Hl; simpl; [constructor|].
  apply StronglySorted_inv in Hl as [Hl Hx].
  apply insert_by_stable; [by apply IH|]. by rewrite sort_by_perm.
Qed.

Lemma head_filter_first (R : A → A → Prop) (P : A → Prop)
    `{!∀ x, Decision (P x)} (l : list A) (x : A) :
  StronglySorted R l → head (filter P l) = Some x →
  x ∈ l ∧ P x ∧ ∀ y, y ∈ l → P y → y = x ∨ R x y.
Proof.
  induction l as [|a l IH]; intros Hs Hh; [done|].
  apply StronglySorted_inv in Hs as [Hs Ha].
  rewrite filter_cons in Hh. destruct (decide (P a)) as [HP|HP].
  - simpl in Hh. injection Hh as <-. split; [left|]. split; [done|].
    intros y [->|Hy]%elem_of_cons _; [by left|].
    right. by eapply Forall_forall in Ha.
  - destruct (IH Hs Hh) as (Hx & HPx & Hmin).
    split; [by right|]. split; [done|].
    intros y [->|Hy]%elem_of_cons HPy; [done|by apply Hmin].
Qed.

Lemma head_first (R : A → A → Prop) (l : list A) (x : A) :
  StronglySorted R l → head l = Some x → ∀ y, y ∈ l → y = x ∨ R x y.
Proof.
  destruct l as [|a l]; intros Hs Hh y Hy; [done|]. injection Hh as ->.
  apply StronglySorted_inv in Hs as [_ Ha].
  apply elem_of_cons in Hy as [->|Hy]; [by left|].
  right. by eapply Forall_forall in Ha.
Qed.

(** [choices[0] || sorted[0]] after a stable sort of candidates listed by
    increasing position. *)
Lemma first_choice_stable (P : A → Prop) `{!∀ x, Decision (P x)}
    (l : list A) (x : A) :
  StronglySorted (λ a b, (idx a < idx b)%nat) l →
  head (filter P (sort_by cmp l)) ∪ head (sort_by cmp l) = Some x →
  ∀ y, y ∈ l → P y ∨ ¬ P x → y = x ∨ first_by cmp idx x y.
Proof.
  intros Hl Hh y Hy Hc. pose proof (sort_by_stable l Hl) as Hs.
  apply (sort_by_elem_of cmp) in Hy.
  destruct (head (filter P (sort_by cmp l))) as [x'|] eqn:Hf.
  - assert (x' = x) as ->
      by (destruct (head (sort_by cmp l)); by injection Hh).
    destruct (head_filter_first _ P _ _ Hs Hf) as (_ & HPx & Hmin).
    destruct Hc as [HPy|HnP]; [by apply Hmin|done].
  - destruct (head (sort_by cmp l)) as [x'|] eqn:Hh'; [|done].
    injection Hh as ->. by apply (head_first _ _ _ Hs Hh').
Qed.
End sort_by_stable.

Lemma cmp_box_dueAt_sflip (a b : nat * Card) :
  0 < on_card cmp_box_dueAt a b → on_card cmp_box_dueAt b a < 0.
Proof.
  unfold on_card, cmp_box_dueAt.
  repeat match goal with |- context [?x =? ?y] => destruct (Z.eqb_spec x y) end;
    lia.
Qed.

Lemma cmp_dueAt_box_sflip (a b : nat * Card) :
  0 < on_card cmp_dueAt_box a b → on_card cmp_dueAt_box b a < 0.
Proof.
  unfold on_card, cmp_dueAt_box.
  repeat match goal with |- context [?x =? ?y] => destruct (Z.eqb_spec x y) end;
    lia.
Qed.

Lemma cards_by_position (l : list Card) (k : nat) :
  StronglySorted (λ a b : nat * Card, (a.1 < b.1)%nat)
    (imap (λ i c, ((k + i)%nat, c)) l).
Proof.
  revert k. induction l as [|c l IH]; intros k; [constructor|].
  rewrite imap_cons.
  rewrite (imap_ext _ (λ i c, ((S k + i)%nat, c))) by (intros; simpl; f_equal; lia).
  constructor; [apply IH|].
  apply Forall_forall. intros [j d] (i & d' & [= -> ->] & _)%elem_of_lookup_imap.
  simpl. lia.
Qed.

Lemma StronglySorted_filter {A} (R : A → A → Prop) (P : A → Prop)
    `{!∀ x, Decision (P x)} (l : list A) :
  StronglySorted R l → StronglySorted R (filter P l).
Proof.
  induction l as [|a l IH]; intros Hs; [constructor|].
  apply StronglySorted_inv in Hs as [Hs Ha]. rewrite filter_cons.
  destruct (decide (P a)); [|by apply IH].
  constructor; [by apply IH|].
  rewrite Forall_forall in Ha. apply Forall_forall.
  intros y [_ Hy]%list_elem_of_filter. by apply Ha.
Qed.

(** The card [pickNextCard] returns comes first among the cards it chooses
    from, by the comparator of its branch and then by position. *)
Lemma pickNextCard_first (st : State) (i : nat) :
  pickNextCard st = Some i →
  ∃ c, deck st !! i = Some c
    ∧ ∀ j d, deck st !! j = Some d →
        (dueAt c <= questionIndex st → dueAt d <= questionIndex st) →
        Some (g d) ≠ lastTargetG st ∨ Some (g c) = lastTargetG st →
        (dueAt c <= questionIndex st →
         cmp_box_dueAt c d < 0 ∨ (cmp_box_dueAt c d = 0 ∧ (i <= j)%nat))
        ∧ (questionIndex st < dueAt c →
           cmp_dueAt_box c d < 0 ∨ (cmp_dueAt_box c d = 0 ∧ (i <= j)%nat)).
Proof.
  unfold pickNextCard.
  set (cards := imap (λ i c, (i, c)) (deck st)).
  assert (Hcards : StronglySorted (λ a b : nat * Card, (a.1 < b.1)%nat) cards)
    by apply (cards_by_position (deck st) 0).
  assert (Hlast : ∀ c d : Card,
    Some (g d) ≠ lastTargetG st ∨ Some (g c) = lastTargetG st →
    ∀ i j, not_last (lastTargetG st) (j, d) ∨ ¬ not_last (lastTargetG st) (i, c)).
  { intros c d [?|Heq] ? ?; [by left|right]. unfold not_last. simpl. by intros ?. }
  destruct (filter (is_due (questionIndex st)) cards) as [|p due] eqn:Hdue.
  - intros Hp. apply fmap_Some in Hp as ([i' c] & Hh & ->). simpl.
    pose proof (first_choice_spec _ cmp_dueAt_box_trans cmp_dueAt_box_flip
                  _ _ _ Hh) as [Hin _].
    apply elem_of_cards in Hin. exists c. split; [done|].
    intros j d Hd _ Hl.
    assert (questionIndex st < dueAt c) as Hnd.
    { destruct (decide (dueAt c <= questionIndex st)) as [Hle|]; [|lia].
      assert ((i', c) ∈ filter (is_due (questionIndex st)) cards) as Hf
        by (apply list_elem_of_filter; split; [done|by apply elem_of_cards]).
      rewrite Hdue in Hf. by apply elem_of_nil in Hf. }
    split; [lia|]. intros _.
    destruct (first_choice_stable (on_card cmp_dueAt_box) fst
                cmp_dueAt_box_trans cmp_dueAt_box_sflip _ cards (i', c)
                Hcards Hh (j, d)) as [[= -> ->]|Hfirst];
      [by apply elem_of_cards | by apply Hlast | | exact Hfirst].
    right. split; [|done]. unfold cmp_dueAt_box.
    by rewrite !Z.sub_diag.
  - rewrite <- Hdue. clear p due Hdue.
    intros Hp. apply fmap_Some in Hp as ([i' c] & Hh & ->). simpl.
    pose proof (first_choice_spec _ cmp_box_dueAt_trans cmp_box_dueAt_flip
                  _ _ _ Hh) as [Hin _].
    apply list_elem_of_filter in Hin as [Hc Hin]. apply elem_of_cards in Hin.
    exists c. split; [done|]. intros j d Hd Hdd Hl.
    split; [|unfold is_due in Hc; simpl in Hc; lia]. intros _.
    destruct (first_choice_stable (on_card cmp_box_dueAt) fst
                cmp_box_dueAt_trans cmp_box_dueAt_sflip _
                (filter (is_due (questionIndex st)) cards) (i', c)
                (StronglySorted_filter _ _ _ Hcards) Hh (j, d))
      as [[= -> ->]|Hfirst];
      [ apply list_elem_of_filter; split; [by apply Hdd|by apply elem_of_cards]
      | by apply Hlast | | exact Hfirst].
    right. split; [|done]. unfold cmp_box_dueAt.
    by rewrite !Z.sub_diag.
Qed.

(** X10: among the cards [pickNextCard] chooses from, cards equal in box and
    [dueAt] are taken in the order of the deck: no card with the box and
    [dueAt] of the card returned, and not excluded as the last target,
    stands before it in the deck. *)
Theorem pickNextCard_ties_by_deck_order (st : State) (i j : nat) (c d : Card) :
  pickNextCard st = Some i → deck st !! i = Some c → deck st !! j = Some d →
  box d = box c → dueAt d = dueAt c →
  Some (g d) ≠ lastTargetG st ∨ Some (g c) = lastTargetG st →
  (i <= j)%nat.
Proof.
  intros Hi Hc Hd Hb Hdue Hl.
  destruct (pickNextCard_first st i Hi) as (c' & Hc' & Hfirst).
  assert (c' = c) as -> by congruence.
  destruct (Hfirst j d Hd ltac:(lia) Hl) as [Hdue1 Hdue2].
  assert (cmp_box_dueAt c d = 0 ∧ cmp_dueAt_box c d = 0) as [H0 H0'].
  { unfold cmp_box_dueAt, cmp_dueAt_box. rewrite Hb, Hdue, !Z.sub_diag. done. }
  destruct (decide (dueAt c <= questionIndex st)).
  - destruct Hdue1 as [?|[_ ?]]; [done|lia|done].
  - destruct Hdue2 as [?|[_ ?]]; [lia|lia|done].
Qed.

Lemma pickNextCard_ties_by_deck_order_witness :
  pickNextCard (selector_state [mk "b" 1 9; mk "c" 1 9] 10 None) = Some 0%nat
  ∧ (0 <= 1)%nat.
Proof.
  split; [reflexivity|].
  apply (pickNextCard_ties_by_deck_order
           (selector_state [mk "b" 1 9; mk "c" 1 9] 10 None)
           0 1 (mk "b" 1 9) (mk "c" 1 9)); try reflexivity.
  left. discriminate.
Defined.

(** X11: when no card is due, [pickNextCard] returns the card due soonest,
    and among those the one in the lowest box, among the cards that differ
    from the last target (among all cards when none differs). *)
Theorem pickNextCard_soonest_when_none_due (st : State) :
  deck st ≠ [] →
  (∀ j d, deck st !! j = Some d → questionIndex st < dueAt d) →
  ∃ i c,
    pickNextCard st = Some i ∧ deck st !! i = Some c
    ∧ ((∃ j d, deck st !! j = Some d ∧ Some (g d) ≠ lastTargetG st) →
       Some (g c) ≠ lastTargetG st)
    ∧ (∀ j d, deck st !! j = Some d →
              Some (g d) ≠ lastTargetG st ∨ Some (g c) = lastTargetG st →
              dueAt c < dueAt d ∨ (dueAt c = dueAt d ∧ box c <= box d)).
Proof.
  intros Hne Hnone.
  destruct (pickNextCard_is_Some st Hne) as [i Hi].
  destruct (pickNextCard_spec st i Hi) as (c & Hc & [[Hdue _]|[_ Hmin]]).
  { specialize (Hnone i c Hc). lia. }
  exists i, c. split; [done|]. split; [done|].
  destruct Hmin as [[Hnl Hmin]|[Hall Hmin]].
  - split; [done|]. intros j d Hd [Hdl|Hcl]; [|done].
    apply cmp_dueAt_box_le. by eapply Hmin.
  - split.
    + intros (j & d & Hd & Hdl). by specialize (Hall j d Hd).
    + intros j d Hd _. apply cmp_dueAt_box_le. by eapply Hmin.
Qed.

Lemma pickNextCard_soonest_when_none_due_witness :
  ∃ i c,
    pickNextCard (selector_state [mk "b" 1 12; mk "c" 2 14] 10 None) = Some i
    ∧ [mk "b" 1 12; mk "c" 2 14] !! i = Some c
    ∧ (dueAt c < 14 ∨ (dueAt c = 14 ∧ box c <= 2)).
Proof.
  destruct (pickNextCard_soonest_when_none_due
              (selector_state [mk "b" 1 12; mk "c" 2 14] 10 None))
    as (i & c & Hi & Hc & _ & Hmin).
  - discriminate.
  - intros [|[|j]] d [= <-]; simpl; lia.
  - exists i, c. split; [exact Hi|]. split; [exact Hc|].
    apply (Hmin 1%nat (mk "c" 2 14)); [reflexivity|]. left. discriminate.
Defined.

(** ** Showing a question *)

Lemma pickNextCard_empty (st : State) : deck st = [] → pickNextCard st = None.
Proof. intros Hd. unfold pickNextCard. by rewrite Hd. Qed.


Lemma nextQuestion_inv (st st' : State) :
  nextQuestion st = Some st' →
  ∃ i c,
    pickNextCard
      {| activeCount := activeCount st;
         correctSinceUnlock := correctSinceUnlock st; deck := deck st;
         questionIndex := questionIndex st + 1; current := current st;
         lastTargetG := lastTargetG st; timerTotal := timerTotal st;
         timerLeft := timerLeft st; score := score st; asked := asked st;
         right_ := right_ st; streak := streak st;
         castleStage := castleStage st |} = Some i
    ∧ deck st !! i = Some c
    ∧ st' =
      {| activeCount := activeCount st;
         correctSinceUnlock := correctSinceUnlock st; deck := deck st;
         questionIndex := questionIndex st + 1; current := Some i;
         lastTargetG := Some (g c); timerTotal := timerTotal st;
         timerLeft := timerTotal st; score := score st; asked := asked st;
         right_ := right_ st; streak := streak st;
         castleStage := castleStage st |}.
Proof. intros Hs. next_inv Hs. by exists i, c. Qed.

(** X13: the start button on a state with at least one active sound starts
    a fresh game whose first question asks the first sound of the catalog;
    with no active sound it throws. *)
Theorem startGame_asks_first_sound (st : State) :
  (activeCount st = 0%nat → startGame st = None)
  ∧ ((1 <= activeCount st)%nat →
     ∃ st', startGame st = Some st'
       ∧ current st' = Some 0%nat
       ∧ lastTargetG st' = Some "ch"
       ∧ questionIndex st' = 1
       ∧ deck st' = makeCard <$> take (activeCount st) SOUNDS_ORDERED
       ∧ score st' = 0 ∧ streak st' = 0 ∧ asked st' = 0).
Proof.
  unfold startGame. split.
  - intros H0. unfold nextQuestion.
    rewrite pickNextCard_empty; [done|]. simpl. by rewrite H0.
  - intros H1.
    assert (Hfirst : deck (initDeck st) !! 0%nat
                     = Some (makeCard (mkSound "ch" "ch"))).
    { unfold initDeck. cbn [deck].
      rewrite list_lookup_fmap, lookup_take_lt by lia. done. }
    destruct (nextQuestion (initDeck st)) as [st'|] eqn:Hs.
    + exists st'. split; [done|].
      destruct (nextQuestion_inv _ _ Hs) as (i & c & Hpick & Hcard & ->).
      destruct (pickNextCard_first _ i Hpick) as (c' & Hc' & Hmin).
      cbn [deck questionIndex lastTargetG] in Hc', Hmin.
      assert (c' = c) as -> by congruence.
      assert (Hfresh : box c = 1 ∧ dueAt c = 0).
      { unfold initDeck in Hcard. cbn [deck] in Hcard.
        apply list_lookup_fmap_Some in Hcard as (s & -> & _). done. }
      destruct Hfresh as [Hb Hd].
      destruct (Hmin 0%nat (makeCard (mkSound "ch" "ch")) Hfirst) as [Hdue _];
        [simpl; lia | left; discriminate |].
      assert (i = 0%nat) as ->.
      { destruct Hdue as [Hlt|[_ Hle]]; [simpl; lia| |lia].
        unfold cmp_box_dueAt in Hlt. rewrite Hb, Hd in Hlt. simpl in Hlt. lia. }
      rewrite Hfirst in Hcard. injection Hcard as <-.
      repeat split; done.
    + exfalso. unfold nextQuestion in Hs.
      match type of Hs with context [pickNextCard ?s] =>
        destruct (pickNextCard_is_Some s) as [i Hi];
        [cbn [deck]; intros Hnil; by rewrite Hnil in Hfirst|];
        destruct (pickNextCard_spec s i Hi) as (c & Hc & _);
        rewrite Hi in Hs; simpl in Hs, Hc; rewrite Hc in Hs end.
      done.
Qed.

Lemma startGame_asks_first_sound_witness :
  ∃ st', startGame state = Some st'
    ∧ current st' = Some 0%nat ∧ lastTargetG st' = Some "ch".
Proof.
  destruct (startGame_asks_first_sound state) as [_ Hstart].
  destruct Hstart as (st' & Hs & Hc & Hl & _); [simpl; lia|].
  exists st'. repeat split; assumption.
Defined.

(** ** A question on screen can be answered *)

Lemma nextQuestion_is_Some (st : State) :
  deck st ≠ [] → is_Some (nextQuestion st).
Proof.
  intros Hne. unfold nextQuestion.
  match goal with |- context [pickNextCard ?s] =>
    destruct (pickNextCard_is_Some s Hne) as [i Hi];
    destruct (pickNextCard_spec s i Hi) as (c & Hc & _);
    rewrite Hi; simpl; simpl in Hc; rewrite Hc end.
  by eexists.
Qed.

Lemma g_schedule (u : Q) (q : Z) (c : Card) : g (schedule u q c) = g c.
Proof. by destruct (schedule_frame u q c) as (-> & _). Qed.

Lemma answer_timeout_keep_question (ev : event) (st st' : State) :
  ev ≠ Next → step ev st = Some st' →
  current st' = current st ∧ lastTargetG st' = lastTargetG st
  ∧ ∀ i c, current st = Some i → deck st !! i = Some c →
      ∃ c', deck st' !! i = Some c' ∧ g c' = g c.
Proof.
  intros Hev Hs. destruct ev as [|chosen u|u]; [done|..]; simpl in Hs.
  - answer_inv Hs; simpl.
    + assert (Hl : (i < length (deck st))%nat) by by eapply lookup_lt_Some.
      case_decide.
      * match goal with |- context [unlockNext ?s] =>
          destruct (unlockNext_frame s) as (_ & -> & -> & _) end.
        simpl. repeat split. intros i' c' [= <-] Hc'. eexists. split.
        -- apply unlockNext_lookup. simpl. by apply list_lookup_insert_eq.
        -- rewrite g_schedule. simpl. congruence.
      * simpl. repeat split. intros i' c' [= <-] Hc'. eexists. split.
        -- by apply list_lookup_insert_eq.
        -- rewrite g_schedule. simpl. congruence.
    + repeat split. intros i' c' [= <-] Hc'. eexists. split.
      * apply list_lookup_insert_eq. by eapply lookup_lt_Some.
      * rewrite g_schedule. simpl. congruence.
  - timeout_inv Hs. simpl. repeat split. intros i' c' [= <-] Hc'.
    eexists. split.
    + apply list_lookup_insert_eq. by eapply lookup_lt_Some.
    + rewrite g_schedule. simpl. congruence.
Qed.

(** X14: once a question has been shown, a question stays on screen after
    every event: [state.current] is a card of the deck and
    [state.lastTargetG] its symbol; in such a state a timeout, an incorrect
    answer and the next question do not throw. *)
Theorem shown_question_can_be_answered :
  (∀ st st', nextQuestion st = Some st' → question_shown st')
  ∧ (∀ ev st st', question_shown st → step ev st = Some st' →
       question_shown st')
  ∧ (∀ st, question_shown st →
       (∀ u, is_Some (timesUp u st))
       ∧ (∀ chosen u c, current_card st = Some c → chosen ≠ g c →
            is_Some (onAnswerClick chosen u st))
       ∧ is_Some (nextQuestion st)).
Proof.
  assert (Hnext : ∀ st st', nextQuestion st = Some st' → question_shown st').
  { intros st st' Hs.
    destruct (nextQuestion_inv _ _ Hs) as (i & c & _ & Hc & ->).
    by exists i, c. }
  split; [exact Hnext|]. split.
  - intros ev st st' (i & c & Hi & Hc & Hl) Hs.
    assert (ev = Next ∨ ev ≠ Next) as [->|Hev]
      by (destruct ev; [by left|by right..]); [by eapply Hnext|].
    destruct (answer_timeout_keep_question ev st st' Hev Hs) as (Hi' & Hl' & Hk).
    destruct (Hk i c Hi Hc) as (c' & Hc' & Hg).
    exists i, c'. rewrite Hi', Hl', Hg. done.
  - intros st (i & c & Hi & Hc & Hl). split; [|split].
    + intros u. unfold timesUp. rewrite Hi. simpl. rewrite Hc. simpl.
      by eexists.
    + intros chosen u c' Hc' Hne.
      destruct (onAnswerClick_incorrect_score st c' chosen u Hc' Hne)
        as (st' & -> & _).
      by eexists.
    + apply nextQuestion_is_Some. intros Hnil. by rewrite Hnil in Hc.
Qed.

Lemma shown_question_can_be_answered_witness :
  question_shown at_first_question
  ∧ is_Some (timesUp (1 # 2) at_first_question)
  ∧ is_Some (onAnswerClick "ou" (1 # 2) at_first_question).
Proof.
  destruct shown_question_can_be_answered as (Hnext & _ & Hok).
  assert (Hq : question_shown at_first_question)
    by (apply (Hnext (initDeck state)); reflexivity).
  split; [exact Hq|].
  destruct (Hok at_first_question Hq) as (Htime & Hwrong & _).
  split; [apply Htime|].
  apply (Hwrong "ou" (1 # 2) (makeCard (mkSound "ch" "ch")));
    [reflexivity|discriminate].
Defined.

(** ** The loops of the distractor builder *)

(** X15: the loop that picks the distractors always ends, after at most as
    many draws as the pool has entries, with at most three distractors of
    pairwise distinct families, none of them in use before, all entries of
    the pool; and when it ends with fewer than three, no other family is
    left: every entry of the pool has a family in use or picked. *)
Theorem pick_distractors_best_effort (rand : nat → Q) (k n : nat)
    (P D : list Sound) (U : gset string) :
  (∀ m, unit_draw (rand m)) →
  (length P <= k)%nat → (length D <= 3)%nat →
  ∃ E n',
    pick_distractors k rand n P D U = Some (D ++ E, n')
    ∧ (length (D ++ E) <= 3)%nat
    ∧ E ⊆ P
    ∧ NoDup (sfam <$> E)
    ∧ (∀ e, e ∈ E → sfam e ∉ U)
    ∧ (n <= n' <= n + length P)%nat
    ∧ ((length (D ++ E) < 3)%nat →
       ∀ p, p ∈ P → sfam p ∈ U ∨ sfam p ∈ sfam <$> E).
Proof.
  intros Hr. revert n P D U.
  assert (Hdone : ∀ k n P D U,
    (length D <= 3)%nat → ¬ ((length D < 3)%nat ∧ P ≠ []) →
    ∃ E n',
      pick_distractors k rand n P D U = Some (D ++ E, n')
      ∧ (length (D ++ E) <= 3)%nat ∧ E ⊆ P ∧ NoDup (sfam <$> E)
      ∧ (∀ e, e ∈ E → sfam e ∉ U)
      ∧ (n <= n' <= n + length P)%nat
      ∧ ((length (D ++ E) < 3)%nat →
         ∀ p, p ∈ P → sfam p ∈ U ∨ sfam p ∈ sfam <$> E)).
  { intros k' n P D U HD Hno. exists [], n.
    rewrite app_nil_r, pick_distractors_done by done.
    split; [done|]. split; [done|]. split; [by intros x Hx%elem_of_nil|].
    split; [constructor|]. split; [by intros e He%elem_of_nil|].
    split; [lia|]. intros Hl p Hp.
    destruct P as [|p0 P]; [by apply elem_of_nil in Hp|].
    destruct Hno. by split. }
  induction k as [|k IH]; intros n P D U HP HD.
  - apply Hdone; [done|]. destruct P; [|simpl in HP; lia]. by intros [_ ?].
  - destruct (decide ((length D < 3)%nat ∧ P ≠ [])) as [[Hlt Hne]|Hno];
      [|by apply Hdone].
    rewrite pick_distractors_S, decide_True by done. simpl.
    pose proof (splice_start_in_range (rand n) P (Hr n) Hne) as Hi.
    set (i := splice_start _ _) in *.
    destruct (lookup_lt_is_Some_2 P i Hi) as [pick Hpick].
    rewrite Hpick. simpl.
    pose proof (delete_Permutation P i pick Hpick) as Hperm.
    assert (Hlen : length (delete i P) = (length P - 1)%nat)
      by (apply length_delete; by eexists).
    destruct (decide (sfam pick ∈ U)) as [Hin|Hnin].
    + destruct (IH (S n) (delete i P) D U)
        as (E & n' & Hs & Hl & HE & Hnd & HU & Hn & Hshort); [lia|done|].
      exists E, n'. split; [done|]. split; [done|]. split.
      { intros e He. rewrite Hperm. right. by apply HE. }
      split; [done|]. split; [done|]. split; [lia|].
      intros Hl3 p Hp. rewrite Hperm in Hp.
      apply elem_of_cons in Hp as [->|Hp]; [by left|by apply Hshort].
    + destruct (IH (S n) (delete i P) (D ++ [pick]) ({[sfam pick]} ∪ U))
        as (E & n' & Hs & Hl & HE & Hnd & HU & Hn & Hshort);
        [lia|rewrite length_app; simpl; lia|].
      exists (pick :: E), n'. rewrite <- app_assoc in Hs, Hl, Hshort.
      simpl in Hs, Hl, Hshort.
      split; [done|]. split; [done|]. split.
      { intros e [->|He]%elem_of_cons.
        - by eapply list_elem_of_lookup_2.
        - rewrite Hperm. right. by apply HE. }
      split.
      { csimpl. apply NoDup_cons. split; [|done].
        intros (e & Hfe & He)%list_elem_of_fmap.
        apply (HU e He). rewrite <- Hfe.
        apply elem_of_union. left. by apply elem_of_singleton. }
      split.
      { intros e [->|He]%elem_of_cons; [done|].
        intros HeU. apply (HU e He). apply elem_of_union. by right. }
      split; [lia|].
      intros Hl3 p Hp. rewrite Hperm in Hp. csimpl.
      apply elem_of_cons in Hp as [->|Hp]; [right; by left|].
      destruct (Hshort Hl3 p Hp) as [[Hpf|HpU]%elem_of_union|HpE].
      * apply elem_of_singleton in Hpf. right. rewrite Hpf. by left.
      * by left.
      * right. by right.
Qed.

Lemma pick_distractors_best_effort_witness :
  ∃ E n',
    pick_distractors 2 some_draws 0
      [mkSound "ain" "in"; mkSound "ein" "in"] [] {[ "ch" ]}
    = Some (E, n')
    ∧ (length E <= 3)%nat ∧ NoDup (sfam <$> E) ∧ (n' <= 2)%nat.
Proof.
  destruct (pick_distractors_best_effort some_draws 2 0
              [mkSound "ain" "in"; mkSound "ein" "in"] [] {[ "ch" ]})
    as (E & n' & Hs & Hl & _ & Hnd & _ & Hn & _).
  - intros m. unfold unit_draw, some_draws, Qle, Qlt. simpl.
    pose proof (Nat.mod_upper_bound (m * 37) 101). lia.
  - simpl. lia.
  - simpl. lia.
  - exists E, n'. simpl in *. repeat split; try assumption. lia.
Defined.

Lemma backfill_S (fuel : nat) (rand : nat → Q) (n : nat) (target : Card)
    (distractors : list Sound) :
  backfill (S fuel) rand n target distractors
  = if decide (length distractors < 3)%nat then
      any ← at_index SOUNDS_ORDERED
               (rnd (rand n) 0 (Z.of_nat (length SOUNDS_ORDERED) - 1));
      if decide (sg any ≠ g target
                 ∧ ¬ Exists (λ d, sg d = sg any) distractors)
      then backfill fuel rand (S n) target (distractors ++ [any])
      else backfill fuel rand (S n) target distractors
    else Some (distractors, n).
Proof. reflexivity. Qed.

Lemma at_index_elem_of {A} (l : list A) (i : Z) (x : A) :
  at_index l i = Some x → x ∈ l.
Proof.
  unfold at_index. destruct (i <? 0); [done|]. apply list_elem_of_lookup_2.
Qed.

(** X16: when the backfill loop returns, it has only added sounds of the
    catalog at the end of the distractors, it has exactly three distractors
    if it started with at most three, their symbols are still pairwise
    distinct and none is the target's; families are not looked at. *)
Theorem backfill_adds_distinct_symbols (fuel : nat) (rand : nat → Q) (n : nat)
    (target : Card) (D D' : list Sound) (n' : nat) :
  backfill fuel rand n target D = Some (D', n') →
  NoDup (sg <$> D) → ¬ g target ∈ sg <$> D → (length D <= 3)%nat →
  ∃ E, D' = D ++ E
    ∧ length D' = 3%nat
    ∧ NoDup (sg <$> D') ∧ ¬ g target ∈ sg <$> D'
    ∧ (∀ e, e ∈ E → e ∈ SOUNDS_ORDERED)
    ∧ (n + length E <= n')%nat.
Proof.
  assert (Hdone : ∀ n D, NoDup (sg <$> D) → ¬ g target ∈ sg <$> D →
            (length D <= 3)%nat → ¬ (length D < 3)%nat →
            ∃ E, D = D ++ E ∧ length D = 3%nat
              ∧ NoDup (sg <$> D) ∧ ¬ g target ∈ sg <$> D
              ∧ (∀ e, e ∈ E → e ∈ SOUNDS_ORDERED)
              ∧ (n + length E <= n)%nat).
  { intros m D0 Hnd Ht Hl H3. exists []. rewrite app_nil_r.
    split; [done|]. split; [lia|]. split; [done|]. split; [done|].
    split; [by intros e He%elem_of_nil|]. simpl. lia. }
  revert n D. induction fuel as [|fuel IH]; intros n D Hb Hnd Ht Hl.
  - simpl in Hb. case_decide; [done|]. injection Hb as <- <-. by apply Hdone.
  - rewrite backfill_S in Hb. case_decide as H3;
      [|injection Hb as <- <-; by apply Hdone].
    destruct (at_index SOUNDS_ORDERED _) as [any|] eqn:Hany; simpl in Hb; [|done].
    case_decide as Hok.
    + destruct Hok as [Hne Hnew].
      destruct (IH (S n) (D ++ [any]) Hb) as (E & -> & Hl' & Hnd' & Ht' & HE & Hn).
      * rewrite fmap_app. apply NoDup_app. split; [done|]. split.
        -- intros x Hx Hx'. apply list_elem_of_singleton in Hx'. subst x.
           apply Hnew. apply Exists_exists.
           apply list_elem_of_fmap in Hx as (d & Hd & Hin). by exists d.
        -- apply NoDup_singleton.
      * rewrite fmap_app. intros Hin. apply elem_of_app in Hin as [Hin|Hin];
          [done|]. apply list_elem_of_singleton in Hin. by apply Hne.
      * rewrite length_app. simpl. lia.
      * exists (any :: E). rewrite <- app_assoc in *. simpl in *.
        split; [done|]. split; [done|]. split; [done|]. split; [done|].
        split; [|lia].
        intros e He. apply elem_of_cons in He as [->|He];
          [by eapply at_index_elem_of|by apply HE].
    + destruct (IH (S n) D Hb Hnd Ht Hl) as (E & -> & Hl' & Hnd' & Ht' & HE & Hn).
      exists E. repeat (split; [done|]). lia.
Qed.

Lemma backfill_adds_distinct_symbols_witness :
  ∃ D' n',
    backfill 10 some_draws 0 (makeCard (mkSound "ch" "ch")) [] = Some (D', n')
    ∧ length D' = 3%nat ∧ NoDup (sg <$> D') ∧ ¬ "ch" ∈ sg <$> D'.
Proof.
  destruct (backfill 10 some_draws 0 (makeCard (mkSound "ch" "ch")) [])
    as [[D' n']|] eqn:Hb; [|vm_compute in Hb; discriminate Hb].
  destruct (backfill_adds_distinct_symbols _ _ _ _ _ _ _ Hb)
    as (E & _ & Hl & Hnd & Ht & _); [constructor | by intros ?%elem_of_nil
                                     | simpl; lia |].
  exists D', n'. repeat split; assumption.
Defined.

(** X17: the backfill loop does not end when every draw selects the
    target's own sound or a sound already chosen: with fewer than three
    distractors it is still running after any number of iterations. *)
Theorem backfill_runs_on_without_fresh_draws (fuel : nat) (rand : nat → Q)
    (n : nat) (target : Card) (D : list Sound) :
  (length D < 3)%nat →
  (∀ m, ∃ any,
     at_index SOUNDS_ORDERED
       (rnd (rand m) 0 (Z.of_nat (length SOUNDS_ORDERED) - 1)) = Some any
     ∧ (sg any = g target ∨ sg any ∈ sg <$> D)) →
  backfill fuel rand n target D = None.
Proof.
  intros Hl Hdraws. revert n. induction fuel as [|fuel IH]; intros n.
  - simpl. by rewrite decide_True.
  - rewrite backfill_S, decide_True by done.
    destruct (Hdraws n) as (any & -> & Hany). simpl.
    rewrite decide_False; [apply IH|].
    intros [Hne Hnew]. destruct Hany as [?|Hin]; [done|].
    apply Hnew, Exists_exists.
    apply list_elem_of_fmap in Hin as (d & Hd & Hin). by exists d.
Qed.

Lemma backfill_runs_on_without_fresh_draws_witness :
  backfill 1000 (λ _, 0%Q) 0 (makeCard (mkSound "ch" "ch")) [] = None.
Proof.
  apply backfill_runs_on_without_fresh_draws; [simpl; lia|].
  intros m. exists (mkSound "ch" "ch"). split; [reflexivity|by left].
Defined.

(** X18: for every sequence of draws the shuffle from position [i] returns
    a rearrangement of the options: the same symbols, as many times each,
    with the positions above [i] untouched. *)
Theorem shuffle_rearranges (rand : nat → Q) (i n : nat) (options : list string) :
  (∀ m, unit_draw (rand m)) → (i < length options)%nat →
  ∃ options',
    shuffle i rand n options = Some options'
    ∧ options' ≡ₚ options
    ∧ length options' = length options
    ∧ ∀ j, (i < j)%nat → options' !! j = options !! j.
Proof.
  intros Hr. revert n options.
  induction i as [|i IH]; intros n options Hi.
  - exists options. done.
  - rewrite shuffle_S.
    destruct (lookup_lt_is_Some_2 options (S i) Hi) as [oi Hoi].
    pose proof (Qfloor_unit_draw (rand n) (Z.of_nat (S i) + 1) (Hr n) ltac:(lia))
      as Hj.
    set (j := Qfloor (rand n * inject_Z (Z.of_nat (S i) + 1))) in *.
    destruct (lookup_lt_is_Some_2 options (Z.to_nat j) ltac:(lia)) as [oj Hoj].
    rewrite Hoi. simpl. unfold at_index.
    destruct (Z.ltb_spec j 0) as [|_]; [lia|]. rewrite Hoj. simpl.
    destruct (IH (S n) (<[Z.to_nat j:=oi]> (<[S i:=oj]> options)))
      as (options' & Hs & Hp & Hl & Hfix).
    { rewrite !length_insert. lia. }
    exists options'. split; [done|]. split.
    { rewrite Hp. by apply swap_Permutation. }
    split; [by rewrite Hl, !length_insert|].
    intros k Hk. rewrite Hfix by lia.
    rewrite !list_lookup_insert_ne by lia. done.
Qed.

Lemma shuffle_rearranges_witness :
  ∃ options',
    shuffle 3 some_draws 0 ["ch"; "ou"; "on"; "fr"] = Some options'
    ∧ options' ≡ₚ ["ch"; "ou"; "on"; "fr"].
Proof.
  destruct (shuffle_rearranges some_draws 3 0 ["ch"; "ou"; "on"; "fr"])
    as (options' & Hs & Hp & _).
  - intros m. unfold unit_draw, some_draws, Qle, Qlt. simpl.
    pose proof (Nat.mod_upper_bound (m * 37) 101). lia.
  - simpl. lia.
  - exists options'. split; assumption.
Defined.

(** ** Distractors come from the deck when it is large enough *)

(** The options are the target's symbol and those of three entries of the
    pool. *)
Lemma buildOptions_distractors (fuel : nat) (rand : nat → Q) (st : State)
    (target : Card) :
  (∀ m, unit_draw (rand m)) →
  (3 <= size (fams (total_pool (deck st) target) ∖ {[fam target]}))%nat →
  ∃ E options,
    buildOptions fuel rand st target = Some options
    ∧ options ≡ₚ g target :: (sg <$> E)
    ∧ E ⊆ total_pool (deck st) target.
Proof.
  intros Hr Hfam. unfold buildOptions.
  set (P := total_pool (deck st) target) in *.
  destruct (pick_distractors_spec rand (length P) 0 P [] {[fam target]} Hr)
    as (E & n & Hs & Hl & HE & _); [done|simpl; lia|done|].
  simpl in Hs, Hl. rewrite Hs. simpl. rewrite backfill_done by lia. simpl.
  rewrite length_fmap, Hl. simpl.
  destruct (shuffle_Permutation rand 3 n (g target :: (sg <$> E)) Hr)
    as (options & Hsh & Hp); [simpl; rewrite length_fmap; lia|].
  by exists E, options.
Qed.

(** Of a prefix of the catalog with at least four sounds, at least three
    have another symbol and family than the target: checked on the
    catalog. *)
Lemma prefix_pool_has_three :
  Forall (λ n,
    Forall (λ t,
      (3 <= length (pool_of (makeCard <$> take n SOUNDS_ORDERED) (makeCard t)))%nat)
      SOUNDS_ORDERED)
    (seq 4 25).
Proof. apply (bool_decide_unpack _). vm_compute. reflexivity. Qed.

(** X19: in a game with at least four active sounds every distractor is an
    active sound: the options are symbols of the deck, besides the target's
    own (the catalog is drawn on only for smaller decks). *)
Theorem distractors_are_active_sounds (fuel : nat) (rand : nat → Q)
    (st : State) (target : Card) :
  (∀ m, unit_draw (rand m)) → sound_of target ∈ SOUNDS_ORDERED →
  deck_prefix_of_catalog (deck st) → (4 <= length (deck st))%nat →
  ∃ options,
    buildOptions fuel rand st target = Some options
    ∧ ∀ o, o ∈ options → o = g target ∨ o ∈ g <$> deck st.
Proof.
  intros Hr Ht Hpre H4.
  destruct (buildOptions_distractors fuel rand st target Hr)
    as (E & options & Hb & Hp & HE); [by apply deck_pool_families|].
  exists options. split; [done|]. intros o Ho. rewrite Hp in Ho.
  apply elem_of_cons in Ho as [->|Ho]; [by left|right].
  apply list_elem_of_fmap in Ho as (e & -> & He). apply HE in He.
  (* the pool has three entries, so no sound of the catalog was added *)
  assert (H3 : (3 <= length (pool_of (deck st) target))%nat).
  { destruct Hpre as [n0 Hd].
    assert (Hlen : length (deck st) = length (take n0 SOUNDS_ORDERED))
      by by rewrite <- Hd, length_fmap.
    rewrite length_take in Hlen.
    set (n := (n0 `min` 28)%nat).
    assert (Hn : take n0 SOUNDS_ORDERED = take n SOUNDS_ORDERED).
    { destruct (decide (n0 <= 28)%nat).
      - subst n. by rewrite Nat.min_l.
      - subst n. rewrite Nat.min_r by lia. rewrite !take_ge; simpl; (done || lia). }
    rewrite Hn in Hd.
    rewrite <- (length_fmap sound_of), pool_of_sounds, Hd.
    pose proof prefix_pool_has_three as Hall.
    rewrite Forall_forall in Hall. specialize (Hall n).
    rewrite Forall_forall in Hall.
    specialize (Hall ltac:(apply elem_of_seq; simpl in Hlen; lia)
                  (sound_of target) Ht).
    rewrite <- (length_fmap sound_of), pool_of_sounds in Hall.
    by rewrite sound_of_makeCard_fmap in Hall. }
  unfold total_pool in He. rewrite decide_False in He by lia.
  rewrite app_nil_r in He.
  apply list_elem_of_fmap in He as (c & -> & Hc).
  apply list_elem_of_filter in Hc as [_ Hc].
  change (g c ∈ g <$> deck st). by apply list_elem_of_fmap_2.
Qed.

Lemma distractors_are_active_sounds_witness :
  ∃ options,
    buildOptions 0 some_draws at_first_question (makeCard (mkSound "ch" "ch"))
    = Some options
    ∧ ∀ o, o ∈ options → o = "ch" ∨ o ∈ ["ch"; "ou"; "on"; "fr"].
Proof.
  apply (distractors_are_active_sounds 0 some_draws at_first_question
           (makeCard (mkSound "ch" "ch"))).
  - intros m. unfold unit_draw, some_draws, Qle, Qlt. simpl.
    pose proof (Nat.mod_upper_bound (m * 37) 101). lia.
  - left.
  - by exists 4%nat.
  - simpl. lia.
Defined.

(** ** Displayed values *)

(** The level shown for [n] and for [n + 1] active sounds, checked for every
    [n] below the size of the catalog. *)
Lemma levelPercent_check :
  Forall (λ n,
    match Js.to_Z (Js.Math_round
                     (Js.of_Z (Z.of_nat n)
                      / Js.of_Z (Z.of_nat (length SOUNDS_ORDERED)) * 100)%float),
          Js.to_Z (Js.Math_round
                     (Js.of_Z (Z.of_nat (S n))
                      / Js.of_Z (Z.of_nat (length SOUNDS_ORDERED)) * 100)%float)
    with
    | Some p, Some p' =>
        (0 <=? p) && (p <? p') && (p' <=? 100)
        && Bool.eqb (p' =? 100) (S n =? 28)%nat
        && Bool.eqb (p =? 0) (n =? 0)%nat
    | _, _ => false
    end = true)
    (seq 0 28).
Proof. apply (bool_decide_unpack _). vm_compute. reflexivity. Qed.

(** X20: the level progress shown is a whole percentage that every unlock
    raises; it is 0 exactly with no active sound and 100 exactly when the
    whole catalog is unlocked. *)
Theorem levelPercent_rises_with_unlocks (st st' : State) :
  activeCount st' = S (activeCount st) →
  (activeCount st' <= length SOUNDS_ORDERED)%nat →
  ∃ p p',
    Js.to_Z (levelPercent st) = Some p ∧ Js.to_Z (levelPercent st') = Some p'
    ∧ 0 <= p < p' ∧ p' <= 100
    ∧ (p' = 100 ↔ activeCount st' = length SOUNDS_ORDERED)
    ∧ (p = 0 ↔ activeCount st = 0%nat).
Proof.
  intros HS Hle. unfold levelPercent. rewrite HS in *.
  pose proof levelPercent_check as Hall. rewrite Forall_forall in Hall.
  specialize (Hall (activeCount st)
                ltac:(apply elem_of_seq; simpl in Hle; lia)).
  destruct (Js.to_Z _) as [p|]; [|done].
  destruct (Js.to_Z _) as [p'|]; [|done].
  apply andb_prop in Hall as [Hall H0]. apply andb_prop in Hall as [Hall H100].
  apply andb_prop in Hall as [Hall Hp']. apply andb_prop in Hall as [Hp Hlt].
  apply Z.leb_le in Hp, Hp'. apply Z.ltb_lt in Hlt.
  apply Bool.eqb_prop in H0, H100.
  exists p, p'. split; [done|]. split; [done|]. split; [lia|]. split; [done|].
  split.
  - rewrite <- Z.eqb_eq, H100, Nat.eqb_eq. done.
  - rewrite <- Z.eqb_eq, H0, Nat.eqb_eq. done.
Qed.

Lemma levelPercent_rises_with_unlocks_witness :
  ∃ p p',
    Js.to_Z (levelPercent at_first_question) = Some p
    ∧ Js.to_Z (levelPercent after_five_correct) = Some p'
    ∧ 0 <= p < p' ∧ p' <= 100.
Proof.
  destruct (levelPercent_rises_with_unlocks at_first_question
              after_five_correct)
    as (p & p' & Hp & Hp' & Hlt & Hle & _); [reflexivity|vm_compute; lia|].
  exists p, p'. repeat split; try assumption; apply Hlt.
Defined.

(** From a streak of 6 on the streak multiplier is the one of a streak of
    6, checked for every streak up to 101. *)
Lemma streakMult_capped :
  Forall (λ s,
    PrimFloat.Leibniz.eqb
      (Js.Math_min Js.f0_30 (Js.of_Z s * Js.f0_05))
      (Js.Math_min Js.f0_30 (Js.of_Z 6 * Js.f0_05)) = true)
    (seqZ 6 96).
Proof. apply (bool_decide_unpack _). vm_compute. reflexivity. Qed.

Lemma gained_capped (frac : float) (s : Z) :
  6 <= s <= 101 → gained frac s = gained frac 6.
Proof.
  intros Hs. unfold gained.
  pose proof streakMult_capped as Hall. rewrite Forall_forall in Hall.
  specialize (Hall s ltac:(apply elem_of_seqZ; lia)).
  apply FloatAxioms.Leibniz.eqb_spec in Hall. by rewrite Hall.
Qed.

(** The points for the speed bonus [sb] and the streaks [s] and [s + 1],
    checked for every whole speed bonus and every streak up to 6. *)
Lemma points_check :
  Forall (λ sb,
    Forall (λ s,
      match Js.to_Z (Js.Math_round
                       ((100 + Js.of_Z sb)
                        * (1 + Js.Math_min Js.f0_30 (Js.of_Z s * Js.f0_05)))%float),
            Js.to_Z (Js.Math_round
                       ((100 + Js.of_Z sb)
                        * (1 + Js.Math_min Js.f0_30
                                 (Js.of_Z (s + 1) * Js.f0_05)))%float)
      with
      | Some p, Some p1 => (105 <=? p) && (p <=? 260) && (p <=? p1)
      | _, _ => false
      end = true)
      (seqZ 1 6))
    (seqZ 0 101).
Proof. apply (bool_decide_unpack _). vm_compute. reflexivity. Qed.

(** X21: with a whole speed bonus between 0 and 100, a correct answer that
    brings the streak to [s], for [s] from 1 to 100, is worth between 105
    and 260 points, not less than at a shorter streak, and from a streak of
    6 on the same as at 6: the multiplier is capped at +30%. *)
Theorem points_bounded_and_capped (frac : float) (sb s : Z) :
  Js.Math_round (100 * frac) = Js.of_Z sb →
  0 <= sb <= 100 → 1 <= s <= 100 →
  ∃ p p1,
    Js.to_Z (gained frac s) = Some p
    ∧ 105 <= p <= 260
    ∧ Js.to_Z (gained frac (Z.min s 6)) = Some p
    ∧ Js.to_Z (gained frac (s + 1)) = Some p1 ∧ p <= p1.
Proof.
  intros Hsb Hb Hs.
  pose proof points_check as Hall. rewrite Forall_forall in Hall.
  specialize (Hall sb ltac:(apply elem_of_seqZ; lia)).
  rewrite Forall_forall in Hall.
  destruct (Z_lt_le_dec s 6) as [Hlt|Hge].
  - rewrite Z.min_l by lia. unfold gained. rewrite Hsb.
    specialize (Hall s ltac:(apply elem_of_seqZ; lia)).
    destruct (Js.to_Z _) as [p|]; [|done].
    destruct (Js.to_Z _) as [p1|]; [|done].
    apply andb_prop in Hall as [Hall Hp1]. apply andb_prop in Hall as [Hlo Hhi].
    apply Z.leb_le in Hlo, Hhi, Hp1.
    exists p, p1. repeat split; (done || lia).
  - rewrite Z.min_r by lia.
    rewrite (gained_capped frac s), (gained_capped frac (s + 1)) by lia.
    unfold gained. rewrite Hsb.
    specialize (Hall 6 ltac:(apply elem_of_seqZ; lia)).
    destruct (Js.to_Z _) as [p|]; [|done].
    apply andb_prop in Hall as [Hall _]. apply andb_prop in Hall as [Hlo Hhi].
    apply Z.leb_le in Hlo, Hhi.
    exists p, p. repeat split; (done || lia).
Qed.

Lemma points_bounded_and_capped_witness :
  ∃ p p1,
    Js.to_Z (gained 1 7) = Some p ∧ 105 <= p <= 260
    ∧ Js.to_Z (gained 1 (Z.min 7 6)) = Some p
    ∧ Js.to_Z (gained 1 (7 + 1)) = Some p1 ∧ p <= p1.
Proof.
  apply (points_bounded_and_capped 1 100 7); [reflexivity|lia|lia].
Defined.

(** The accuracy for [r] correct answers out of [a], checked for every
    [a] from 1 to 200 and every [r] up to [a]. *)
Lemma accuracy_check :
  Forall (λ a,
    Forall (λ r,
      match Js.to_Z (Js.Math_round (Js.of_Z r / Js.of_Z a * 100)%float) with
      | Some p =>
          (0 <=? p) && (p <=? 100)
          && (negb (r =? 0) || (p =? 0))
          && (negb (r =? a) || (p =? 100))
      | None => false
      end = true)
      (seqZ 0 (a + 1)))
    (seqZ 1 200).
Proof. apply (bool_decide_unpack _). vm_compute. reflexivity. Qed.

(** X22: with at most 200 questions answered, of which no more are correct
    than were asked, the accuracy shown is a whole percentage between 0 and
    100: 0 before the first answer and with no correct answer, 100 when
    every answer was correct. *)
Theorem accuracy_is_a_percentage (st : State) :
  0 <= right_ st <= asked st → asked st <= 200 →
  ∃ p,
    Js.to_Z (accuracy st) = Some p ∧ 0 <= p <= 100
    ∧ (right_ st = 0 → p = 0)
    ∧ (0 < asked st → right_ st = asked st → p = 100).
Proof.
  intros Hr Ha. unfold accuracy.
  destruct (Z.eqb_spec (asked st) 0) as [H0|H0].
  - exists 0. split; [vm_compute; reflexivity|]. split; [lia|].
    split; [done|lia].
  - pose proof accuracy_check as Hall. rewrite Forall_forall in Hall.
    specialize (Hall (asked st) ltac:(apply elem_of_seqZ; lia)).
    rewrite Forall_forall in Hall.
    specialize (Hall (right_ st) ltac:(apply elem_of_seqZ; lia)).
    destruct (Js.to_Z _) as [p|]; [|done].
    apply andb_prop in Hall as [Hall Hall100].
    apply andb_prop in Hall as [Hall Hall0].
    apply andb_prop in Hall as [Hlo Hhi].
    apply Z.leb_le in Hlo, Hhi.
    exists p. split; [done|]. split; [lia|]. split.
    + intros Hz. apply orb_prop in Hall0 as [Hn|Hp].
      * apply negb_true_iff, Z.eqb_neq in Hn. done.
      * by apply Z.eqb_eq in Hp.
    + intros _ Heq. apply orb_prop in Hall100 as [Hn|Hp].
      * apply negb_true_iff, Z.eqb_neq in Hn. done.
      * by apply Z.eqb_eq in Hp.
Qed.

Lemma accuracy_is_a_percentage_witness :
  ∃ p,
    Js.to_Z (accuracy after_five_correct) = Some p ∧ 0 <= p <= 100
    ∧ (right_ after_five_correct = 0 → p = 0)
    ∧ (0 < asked after_five_correct →
       right_ after_five_correct = asked after_five_correct → p = 100).
Proof.
  apply (accuracy_is_a_percentage after_five_correct);
    [split; vm_compute; discriminate | vm_compute; discriminate].
Defined.
